(** * Order fulfilment saga: inventory ledger, order state machine, payments

    A shallow embedding of the three services of the repository

    - inventory-service ([services/inventory-service/src/index.js]),
    - order-service     ([services/order-service/src/index.js]),
    - payment-service   ([services/payment-service/src/index.js]),

    each as pure functions over an explicit store, followed by the
    properties of the specification that concern them.

    Conventions of the embedding.
    - A Mongo collection with a unique key is a [gmap] from the key to the
      document; a collection without one is a [list] of documents whose
      position plays the role of [_id] (documents are never deleted).
    - JavaScript numbers that hold quantities, amounts and millisecond
      timestamps are taken to be integers ([Z]); no operation of the
      services divides.  The numbers of the code are doubles: on integers
      of magnitude at most 2^53 their sums and differences are exact as
      long as the result stays in that range, and a statement that rests
      on a computed counter carries the range as a hypothesis
      ([InventorySpec.exact]).
    - [await] points are sequential steps: a handler runs to completion on
      the store it is given.
    - The clock and the payment gateway are inputs.  The calls of
      [Date.now()] in one request are readings of their own
      ([InventoryService.reserve_at], [OrderService.postOrder],
      [PaymentService.processOrderPayment]).
    - A handler is modelled with the validation that decides its answer
      for the bodies of the model: the order id of a reserve request and
      the user id of an order are [required], and a request without them
      is rejected when the document is saved.  Fields that the schema
      requires and the model does not carry (names, prices) are taken to
      be present, and strings and numbers to have the type the schema or
      the column gives them. *)

From Stdlib Require Import ZArith Lia.
From stdpp Require Import base decidable option list strings pretty gmap fin_maps.

Local Open Scope Z_scope.

(* ===================================================================== *)
(** * inventory-service *)
(* ===================================================================== *)

Module InventoryService.

(** [inventorySchema]: the fields the ledger operations read or write
    ([productName], [price] and [updatedAt] are never touched by them).
    The three counters are [Number]s, taken here to hold integers. *)
Record Inventory := mkInventory {
  quantity  : Z;
  reserved  : Z;
  available : Z
}.

(** [inventorySchema.pre("save")]: [this.available = this.quantity - this.reserved]. *)
Definition pre_save (inv : Inventory) : Inventory :=
  {| quantity := quantity inv;
     reserved := reserved inv;
     available := quantity inv - reserved inv |}.

(** [reservationSchema.status]: enum ["reserved", "confirmed", "released"]. *)
Inductive ReservationStatus := Reserved | Confirmed | Released.

#[export] Instance ReservationStatus_eq_dec : EqDecision ReservationStatus.
Proof. solve_decision. Defined.

Record Reservation := mkReservation {
  orderId   : string;
  productId : string;
  rquantity : Z;                 (* [quantity] of the reservation *)
  status    : ReservationStatus;
  createdAt : Z;
  expiresAt : Z
}.

(** The two collections of the service. *)
Record Ledger := mkLedger {
  inventory    : gmap string Inventory;   (* [productId] is unique *)
  reservations : list Reservation         (* position = [_id] *)
}.

Definition set_status (st : ReservationStatus) (r : Reservation) : Reservation :=
  {| orderId := orderId r; productId := productId r; rquantity := rquantity r;
     status := st; createdAt := createdAt r; expiresAt := expiresAt r |}.

(** A found document together with its [_id]. *)
Definition Doc : Type := nat * Reservation.

(** [Reservation.find(pred)]: the matching documents, in collection order. *)
Definition find (pred : Reservation → bool) (rs : list Reservation) : list Doc :=
  filter (λ d : Doc, pred d.2 = true) (imap pair rs).

(** [Reservation.find({ orderId, status: "reserved" })]. *)
Definition reserved_of (oid : string) (r : Reservation) : bool :=
  bool_decide (orderId r = oid) && bool_decide (status r = Reserved).

(** ** Confirm: the [status === "success"] branch of [handlePaymentProcessed] *)

(** One iteration of [for (const reservation of reservations)]; [d] is a
    document of the snapshot [find] returned.  [inventory.save()] runs the
    save hook; [reservation.save()] writes the snapshot document, with its
    new status, under its [_id]. *)
Definition confirm_one (s : Ledger) (d : Doc) : Ledger :=
  match inventory s !! productId d.2 with
  | Some inv =>
      {| inventory :=
           <[productId d.2 :=
               pre_save {| quantity := quantity inv - rquantity d.2;
                           reserved := reserved inv - rquantity d.2;
                           available := available inv |}]> (inventory s);
         reservations := <[d.1 := set_status Confirmed d.2]> (reservations s) |}
  | None => s
  end.

(** The loop of the success branch (inline in the source). *)
Definition confirmReservation (oid : string) (s : Ledger) : Ledger :=
  foldl confirm_one s (find (reserved_of oid) (reservations s)).

(** ** Release: [releaseReservation(orderId)] *)

Definition release_one (s : Ledger) (d : Doc) : Ledger :=
  match inventory s !! productId d.2 with
  | Some inv =>
      {| inventory :=
           <[productId d.2 :=
               pre_save {| quantity := quantity inv;
                           reserved := reserved inv - rquantity d.2;
                           available := available inv |}]> (inventory s);
         reservations := <[d.1 := set_status Released d.2]> (reservations s) |}
  | None => s
  end.

Definition releaseReservation (oid : string) (s : Ledger) : Ledger :=
  foldl release_one s (find (reserved_of oid) (reservations s)).

(** ** The [inventory.updated] events the service publishes *)

Record InsufficientItem := mkInsufficient {
  ins_productId : string;
  requested     : Z;
  ins_available : Z
}.

Inductive InventoryUpdated :=
| EvReserved (oid : string)
| EvInsufficient (oid : string) (items : list InsufficientItem).

(** [handlePaymentProcessed(payload)] of the inventory service: the new
    ledger and the events sent to the queue. *)
Definition handlePaymentProcessed (oid status_ : string) (s : Ledger)
  : Ledger * list InventoryUpdated :=
  if bool_decide (status_ = "success")
  then (confirmReservation oid s, [EvReserved oid])
  else (releaseReservation oid s, []).

(** ** Reserve: [POST /api/inventory/reserve] *)

Record Item := mkItem {
  item_productId : string;
  item_quantity  : Z
}.

(** First loop: one availability check.  [!inventory || inventory.available < item.quantity]. *)
Definition check_item (inv : gmap string Inventory) (it : Item) : option InsufficientItem :=
  match inv !! item_productId it with
  | None => Some (mkInsufficient (item_productId it) (item_quantity it) 0)
  | Some i =>
      if bool_decide (available i < item_quantity it)
      then Some (mkInsufficient (item_productId it) (item_quantity it) (available i))
      else None
  end.

Definition insufficientItems (inv : gmap string Inventory) (items : list Item)
  : list InsufficientItem :=
  omap (check_item inv) items.

(** The reservation horizon: [15 * 60 * 1000] milliseconds. *)
Definition horizon : Z := 15 * 60 * 1000.

(** A step that may raise: [Done s] is normal completion, [Thrown s] an
    exception raised in store [s] (what was saved before it stays saved). *)
Inductive Run (A : Type) :=
| Done (a : A)
| Thrown (a : A).
Arguments Done {A} a.
Arguments Thrown {A} a.

(** The two readings of the clock in one iteration of the second loop:
    [Date.now()] in the [expiresAt] expression, then the [createdAt]
    default ([Date.now]) when the document is built. *)
Record Readings := mkReadings {
  at_expiry  : Z;
  at_created : Z
}.

(** One line of the request as the second loop meets it: the item and the
    clock readings of its iteration. *)
Definition Line : Type := Item * Readings.

(** Second loop: one iteration, on the collections and the local array
    [reservations].  [inventory.reserved += item.quantity] on a [null]
    document raises a [TypeError].  [inventory.save()] comes first; then
    [reservation.save()] validates the new document, and [orderId] is
    [required]: for a missing or empty order id it rejects, after the
    inventory document was saved and before the reservation is stored.
    ([productId] names a stored inventory document and the quantity is a
    number, so they pass.) *)
Definition reserve_line (oid : string)
    (acc : Run (Ledger * list Reservation)) (l : Line)
  : Run (Ledger * list Reservation) :=
  match acc with
  | Thrown a => Thrown a
  | Done (s, created) =>
      match inventory s !! item_productId l.1 with
      | None => Thrown (s, created)
      | Some inv =>
          let saved :=
            <[item_productId l.1 :=
                pre_save {| quantity := quantity inv;
                            reserved := reserved inv + item_quantity l.1;
                            available := available inv |}]> (inventory s) in
          let reservation :=
            mkReservation oid (item_productId l.1) (item_quantity l.1)
                          Reserved (at_created l.2) (at_expiry l.2 + horizon) in
          if bool_decide (oid = "")
          then Thrown ({| inventory := saved; reservations := reservations s |},
                       created)
          else Done ({| inventory := saved;
                        reservations := reservations s ++ [reservation] |},
                     created ++ [reservation])
      end
  end.

(** What the response shows of each created reservation. *)
Record ReservationView := mkView {
  view_productId : string;
  view_quantity  : Z;
  view_expiresAt : Z
}.

Definition view_of (r : Reservation) : ReservationView :=
  mkView (productId r) (rquantity r) (expiresAt r).

Inductive ReserveResponse :=
| Rejected400 (items : list InsufficientItem)
| Reserved200 (created : list ReservationView)
| Error500.

Record ReserveResult := mkReserveResult {
  response  : ReserveResponse;
  ledger    : Ledger;
  published : list InventoryUpdated
}.

(** The handler; [lines] are the items of the body, each with the clock
    readings its iteration of the second loop takes. *)
Definition reserve_at (oid : string) (lines : list Line) (s : Ledger)
  : ReserveResult :=
  match insufficientItems (inventory s) lines.*1 with
  | (_ :: _) as short =>
      {| response := Rejected400 short; ledger := s;
         published := [EvInsufficient oid short] |}
  | [] =>
      match foldl (reserve_line oid) (Done (s, [])) lines with
      | Done (s', created) =>
          {| response := Reserved200 (view_of <$> created);
             ledger := s'; published := [] |}
      | Thrown (s', _) =>
          {| response := Error500; ledger := s'; published := [] |}
      end
  end.

(** The handler on a clock that reads [now] throughout the request. *)
Definition at_instant (now : Z) (it : Item) : Line := (it, mkReadings now now).

Definition reserve (oid : string) (items : list Item) (now : Z) (s : Ledger)
  : ReserveResult :=
  reserve_at oid (at_instant now <$> items) s.

(** ** The expiry sweep: the [setInterval] callback *)

(** [Reservation.find({ status: "reserved", expiresAt: { $lt: new Date() } })]. *)
Definition expired (now : Z) (r : Reservation) : bool :=
  bool_decide (status r = Reserved) && bool_decide (expiresAt r < now).

(** The order ids [releaseReservation] is called with, in call order. *)
Definition sweep_calls (now : Z) (s : Ledger) : list string :=
  (λ d : Doc, orderId d.2) <$> find (expired now) (reservations s).

Definition sweepExpired (now : Z) (s : Ledger) : Ledger :=
  foldl (λ acc oid, releaseReservation oid acc) s (sweep_calls now s).

(** ** Stocking: [POST /api/inventory] and [GET /api/inventory/:productId] *)

Inductive StockResponse :=
| Stocked201 (inv : Inventory)
| StockError500.

(** [POST /api/inventory], for a body that passes schema validation (product
    id, name and price present; [q] is the body's quantity, or the schema
    default 0).  [reserved] takes its default 0 and the save hook sets
    [available].  [productId] is [unique]: saving a second document under a
    stored product id rejects with a duplicate-key error, which the handler
    answers with 500. *)
Definition createInventory (pid : string) (q : Z) (s : Ledger)
  : StockResponse * Ledger :=
  match inventory s !! pid with
  | Some _ => (StockError500, s)
  | None =>
      let inv := pre_save {| quantity := q; reserved := 0; available := 0 |} in
      (Stocked201 inv,
       {| inventory := <[pid := inv]> (inventory s);
          reservations := reservations s |})
  end.



End InventoryService.

(* ===================================================================== *)
(** * order-service *)
(* ===================================================================== *)

Module OrderService.

(** [orderSchema.status]: enum ["pending", "payment_processing", "confirmed",
    "failed", "cancelled"]. *)
Inductive OrderStatus :=
| pending | payment_processing | confirmed | failed | cancelled.

#[export] Instance OrderStatus_eq_dec : EqDecision OrderStatus.
Proof. solve_decision. Defined.

Record LineItem := mkLineItem {
  productId : string;
  quantity  : Z;
  price     : Z
}.

Record Order := mkOrder {
  orderId     : string;
  userId      : string;
  items       : list LineItem;
  totalAmount : Z;
  status      : OrderStatus;
  paymentId   : option string;
  createdAt   : Z;
  updatedAt   : Z
}.

(** The payload of [payment.processed], as the handler destructures it:
    [status] is whatever string the message carries. *)
Record PaymentProcessed := mkPaymentProcessed {
  pp_orderId   : string;
  pp_status    : string;
  pp_paymentId : string
}.

(** The payload of [inventory.updated]. *)
Record InventoryUpdated := mkInventoryUpdated {
  iu_orderId : string;
  iu_status  : string
}.

Definition set_order (st : OrderStatus) (pid : option string) (now : Z) (o : Order) : Order :=
  {| orderId := orderId o; userId := userId o; items := items o;
     totalAmount := totalAmount o; status := st; paymentId := pid;
     createdAt := createdAt o; updatedAt := now |}.

(** [handlePaymentProcessed(payload)]; [now] is [new Date()].  [order.save()]
    writes the document [findOne] returned, i.e. the one under the key that
    was looked up. *)
Definition handlePaymentProcessed (now : Z) (payload : PaymentProcessed)
    (orders : gmap string Order) : gmap string Order :=
  match orders !! pp_orderId payload with
  | None => orders
  | Some order =>
      if bool_decide (pp_status payload = "success")
      then <[pp_orderId payload :=
               set_order confirmed (Some (pp_paymentId payload)) now order]> orders
      else <[pp_orderId payload := set_order failed (paymentId order) now order]> orders
  end.

(** [handleInventoryUpdated(payload)]. *)
Definition handleInventoryUpdated (now : Z) (payload : InventoryUpdated)
    (orders : gmap string Order) : gmap string Order :=
  match orders !! iu_orderId payload with
  | None => orders
  | Some order =>
      if bool_decide (iu_status payload = "reserved") then orders
      else if bool_decide (iu_status payload = "insufficient")
      then <[iu_orderId payload := set_order cancelled (paymentId order) now order]> orders
      else orders
  end.

(** The state of the order store as a consumer sees it: the collection, and
    whether the database answers ([Order.findOne] rejects when it does not). *)
Record Store := mkStore {
  orders    : gmap string Order;
  reachable : bool
}.

(** What the broker observes of one delivery. *)
Inductive Delivery := Acked | Unacked.

(** The [channel.consume("payment.processed", ...)] callback:
    [await handlePaymentProcessed(payload); channel.ack(msg)].  The
    acknowledgement is reached exactly when the handler returns. *)
Definition consume_payment_processed (now : Z) (msg : option PaymentProcessed)
    (st : Store) : Store * option Delivery :=
  match msg with
  | None => (st, None)
  | Some payload =>
      if reachable st
      then ({| orders := handlePaymentProcessed now payload (orders st);
               reachable := reachable st |}, Some Acked)
      else (st, Some Unacked)
  end.

(** The [channel.consume("inventory.updated", ...)] callback. *)
Definition consume_inventory_updated (now : Z) (msg : option InventoryUpdated)
    (st : Store) : Store * option Delivery :=
  match msg with
  | None => (st, None)
  | Some payload =>
      if reachable st
      then ({| orders := handleInventoryUpdated now payload (orders st);
               reachable := reachable st |}, Some Acked)
      else (st, Some Unacked)
  end.

(** ** Order creation: [POST /api/orders], [GET /api/orders/:orderId] *)

(** [items.reduce((sum, item) => sum + item.price * item.quantity, 0)]. *)
Definition order_total (its : list LineItem) : Z :=
  foldl (λ sum item, sum + price item * quantity item) 0 its.

(** The [order.created] event. *)
Record OrderCreated := mkOrderCreated {
  oc_orderId     : string;
  oc_userId      : string;
  oc_items       : list LineItem;
  oc_totalAmount : Z
}.

Inductive CreateResponse :=
| OrderCreated201 (oid : string) (st : OrderStatus) (total : Z)
| CreateError500.

(** [POST /api/orders].  [t_id] is the reading of [Date.now()] in the
    order id, [t_created] and [t_updated] are the readings the schema
    defaults of [createdAt] and [updatedAt] take when the document is built.
    [order.save()] validates first: [userId] is [required], so a missing
    or empty user id is rejected.  [orderId] is [unique]: saving an order
    under a stored id is rejected with a duplicate-key error.  Either
    way the handler answers 500, nothing is stored and nothing is
    published. *)
Definition postOrder (t_id t_created t_updated : Z) (uid : string)
    (its : list LineItem) (orders : gmap string Order)
  : CreateResponse * gmap string Order * list OrderCreated :=
  let order :=
    mkOrder ("ORD-" +:+ pretty t_id) uid its (order_total its) pending None
            t_created t_updated in
  if bool_decide (uid = "") then (CreateError500, orders, [])
  else
    match orders !! orderId order with
    | Some _ => (CreateError500, orders, [])
    | None =>
        (OrderCreated201 (orderId order) (status order) (totalAmount order),
         <[orderId order := order]> orders,
         [mkOrderCreated (orderId order) (userId order) (items order)
                         (totalAmount order)])
    end.

Inductive GetOrderResponse :=
| OrderFound200 (order : Order)
| OrderNotFound404.

(** [GET /api/orders/:orderId]. *)
Definition getOrder (oid : string) (orders : gmap string Order) : GetOrderResponse :=
  match orders !! oid with
  | Some order => OrderFound200 order
  | None => OrderNotFound404
  end.

End OrderService.

(* ===================================================================== *)
(** * payment-service *)
(* ===================================================================== *)

Module PaymentService.

(** A row of table [payments]; the [SERIAL] id is the row's position. *)
Record Payment := mkPayment {
  payment_id     : string;
  order_id       : string;
  user_id        : string;
  amount         : Z;
  status         : string;
  transaction_id : option string
}.

(** The payload of [order.created], as [processOrderPayment] destructures it. *)
Record OrderData := mkOrderData {
  orderId     : string;
  userId      : string;
  totalAmount : Z
}.

(** The [payment.processed] event. *)
Record PaymentProcessed := mkPaymentProcessed {
  ev_orderId       : string;
  ev_paymentId     : string;
  ev_status        : string;
  ev_amount        : Z;
  ev_transactionId : option string
}.

(** [INSERT INTO payments ...] under [payment_id ... UNIQUE NOT NULL]: a row
    whose [payment_id] is already stored violates the constraint, and the
    query rejects ([None]).  The other columns are taken to accept the
    row: the insert of an amount that [DECIMAL(10, 2)] cannot hold, or of
    an id longer than [VARCHAR(100)], is rejected too, and what a
    statement says of a stored row is said for rows the columns accept
    ([fits_columns] below). *)
Definition insert_payment (row : Payment) (table : list Payment) : option (list Payment) :=
  if bool_decide (payment_id row ∈ payment_id <$> table) then None
  else Some (table ++ [row]).

(** [processOrderPayment(orderData)].  [t_id] and [t_txn] are the two
    readings of [Date.now()] (for the payment id, and after the gateway call
    for the transaction id); [paymentSuccess] is the gateway's answer.  A
    rejected insert is caught and logged: nothing is stored or published. *)
Definition processOrderPayment (t_id t_txn : Z) (paymentSuccess : bool)
    (orderData : OrderData) (table : list Payment)
  : list Payment * list PaymentProcessed :=
  let paymentId := "PAY-" +:+ pretty t_id in
  let status := if paymentSuccess then "success" else "failed" in
  let transactionId := if paymentSuccess then Some ("TXN-" +:+ pretty t_txn) else None in
  match insert_payment
          (mkPayment paymentId (orderId orderData) (userId orderData)
                     (totalAmount orderData) status transactionId) table with
  | Some table' =>
      (table',
       [mkPaymentProcessed (orderId orderData) paymentId status
                           (totalAmount orderData) transactionId])
  | None => (table, [])
  end.

Inductive RetryResponse := RetryInitiated200 | NoFailedPayment404.

(** [POST /api/payments/retry/:orderId]. *)
Definition retryPayment (t_id t_txn : Z) (paymentSuccess : bool) (oid : string)
    (table : list Payment)
  : RetryResponse * (list Payment * list PaymentProcessed) :=
  match filter (λ row, order_id row = oid ∧ status row = "failed") table with
  | [] => (NoFailedPayment404, (table, []))
  | row0 :: _ =>
      (RetryInitiated200,
       processOrderPayment t_id t_txn paymentSuccess
         (mkOrderData oid (user_id row0) (amount row0)) table)
  end.

Inductive PaymentLookup :=
| PaymentFound200 (row : Payment)
| PaymentNotFound404.

(** [GET /api/payments/:paymentId]: [result.rows[0]], or 404 when no row has
    the id. *)
Definition getPayment (pid : string) (table : list Payment) : PaymentLookup :=
  match filter (λ row, payment_id row = pid) table with
  | [] => PaymentNotFound404
  | row :: _ => PaymentFound200 row
  end.

(** [GET /api/payments/order/:orderId]. *)
Definition getPaymentsByOrder (oid : string) (table : list Payment) : list Payment :=
  filter (λ row, order_id row = oid) table.

End PaymentService.

(* ===================================================================== *)
(** * api-gateway *)
(* ===================================================================== *)

Module ApiGateway.

Fixpoint drop_chars (n : nat) (s : string) : string :=
  match n, s with
  | O, _ => s
  | S n', String _ s' => drop_chars n' s'
  | S _, EmptyString => EmptyString
  end.

(** [s.replace(pat, "")] for a string pattern: the first occurrence of [pat]
    in [s] is removed. *)
Fixpoint remove_first (pat s : string) : string :=
  if String.prefix pat s then drop_chars (String.length pat) s
  else match s with
       | EmptyString => EmptyString
       | String c s' => String c (remove_first pat s')
       end.

Inductive AuthResult :=
| NoAuthorization401
| Authenticated (userId : string).

(** The [authenticate] middleware: a missing or empty [authorization] header
    is answered 401; otherwise the header, less its first "Bearer ", is the
    user id. *)
Definition authenticate (authHeader : option string) : AuthResult :=
  match authHeader with
  | None => NoAuthorization401
  | Some EmptyString => NoAuthorization401
  | Some h => Authenticated (remove_first "Bearer " h)
  end.

End ApiGateway.

(* ===================================================================== *)
(** * Vocabulary of the properties: inventory ledger *)
(* ===================================================================== *)

Module InventorySpec.
Import InventoryService.

(** ** Counter arithmetic shared by the three loops

    Every loop of the service reads a product's document, shifts
    [quantity] and [reserved], and saves it.  A [Touch] records one such
    shift; a loop's effect on the inventory collection is the fold of its
    touches. *)

Record Touch := mkTouch {
  t_product : string;
  t_dq      : Z;          (* added to [quantity] *)
  t_dr      : Z           (* added to [reserved] *)
}.

(** The document after a shift and the save hook. *)
Definition shift (dq dr : Z) (inv : Inventory) : Inventory :=
  {| quantity := quantity inv + dq;
     reserved := reserved inv + dr;
     available := (quantity inv + dq) - (reserved inv + dr) |}.

(** A product without a document is skipped. *)
Definition touch (m : gmap string Inventory) (t : Touch) : gmap string Inventory :=
  match m !! t_product t with
  | Some inv => <[t_product t := shift (t_dq t) (t_dr t) inv]> m
  | None => m
  end.

Definition on_product (p : string) (ts : list Touch) : list Touch :=
  filter (λ t, t_product t = p) ts.

Definition sumZ (l : list Z) : Z := foldr Z.add 0 l.

Definition total (f : Touch → Z) (p : string) (ts : list Touch) : Z :=
  sumZ (f <$> on_product p ts).

(** The net effect of a list of touches on the document of [p]: untouched
    when no touch names [p], otherwise shifted by the totals (and
    [available] recomputed by the save hook). *)
Definition net (p : string) (ts : list Touch) (inv : Inventory) : Inventory :=
  match on_product p ts with
  | [] => inv
  | l => shift (sumZ (t_dq <$> l)) (sumZ (t_dr <$> l)) inv
  end.

(** The touch of one iteration of each loop. *)
Definition confirm_touch (d : Doc) : Touch :=
  mkTouch (productId d.2) (- rquantity d.2) (- rquantity d.2).

Definition release_touch (d : Doc) : Touch :=
  mkTouch (productId d.2) 0 (- rquantity d.2).

Definition reserve_touch (it : Item) : Touch :=
  mkTouch (item_productId it) 0 (item_quantity it).

(** ** Confirm and release as one loop

    [confirm_one] and [release_one] differ only in the shift they apply
    and the status they write; [settle_one] is their common shape, for a
    shift that depends on the reservation's quantity. *)

Definition settle_touch (dq dr : Z → Z) (d : Doc) : Touch :=
  mkTouch (productId d.2) (dq (rquantity d.2)) (dr (rquantity d.2)).

Definition settle_one (dq dr : Z → Z) (st : ReservationStatus) (s : Ledger) (d : Doc)
  : Ledger :=
  match inventory s !! productId d.2 with
  | Some inv =>
      {| inventory :=
           <[productId d.2 := shift (dq (rquantity d.2)) (dr (rquantity d.2)) inv]>
             (inventory s);
         reservations := <[d.1 := set_status st d.2]> (reservations s) |}
  | None => s
  end.

(** What the loop over [find pred] leaves of a reservation: a selected
    one whose product has a document gets the new status. *)
Definition settled (st : ReservationStatus) (pred : Reservation → bool)
    (m : gmap string Inventory) (r : Reservation) : Reservation :=
  if pred r
  then match m !! productId r with Some _ => set_status st r | None => r end
  else r.

(** Nothing of order [oid] can be settled any more: each of its reserved
    reservations names a product without a document. *)
Definition quiet (oid : string) (s : Ledger) : Prop :=
  ∀ d, d ∈ find (reserved_of oid) (reservations s) →
       inventory s !! productId d.2 = None.

(** ** Reserve *)

(** The document a line of an accepted request creates. *)
Definition new_reservation_at (oid : string) (l : Line) : Reservation :=
  mkReservation oid (item_productId l.1) (item_quantity l.1) Reserved
                (at_created l.2) (at_expiry l.2 + horizon).

(** The documents of an accepted request, in request order. *)
Definition reservations_created (oid : string) (lines : list Line)
  : list Reservation :=
  new_reservation_at oid <$> lines.

(** The same on a clock that reads [now] throughout. *)
Definition new_reservation (oid : string) (now : Z) (it : Item) : Reservation :=
  mkReservation oid (item_productId it) (item_quantity it) Reserved now (now + horizon).

(** A line item the check loop accepts: the product exists and holds at
    least the requested quantity. *)
Definition satisfiable (m : gmap string Inventory) (it : Item) : Prop :=
  ∃ inv, m !! item_productId it = Some inv ∧ item_quantity it ≤ available inv.

(** What the shortfall report says is available: the stored counter, or 0
    for a product without a document. *)
Definition available_of (m : gmap string Inventory) (p : string) : Z :=
  match m !! p with Some inv => available inv | None => 0 end.

Definition shortfall_of (m : gmap string Inventory) (it : Item) : InsufficientItem :=
  mkInsufficient (item_productId it) (item_quantity it)
                 (available_of m (item_productId it)).

(** The units the request asks of product [p], over all its lines. *)
Definition requested_total (p : string) (items : list Item) : Z :=
  sumZ (item_quantity <$> filter (λ it, item_productId it = p) items).

(** A request that names each product on one line only and asks for no
    negative quantity. *)
Definition well_formed_request (items : list Item) : Prop :=
  NoDup (item_productId <$> items) ∧ Forall (λ it, 0 ≤ item_quantity it) items.

(** ** Exact arithmetic *)

(** The counters and the requested quantities are JavaScript numbers, that
    is doubles.  The embedding takes them to be integers.  An integer of
    magnitude at most 2^53 is a double, and the sum or the difference of
    two such integers is computed without rounding when it is again of
    magnitude at most 2^53; a comparison of two doubles is always exact.
    A statement that rests on a computed value carries this range as a
    hypothesis. *)
Definition exact (z : Z) : Prop := - 2 ^ 53 ≤ z ≤ 2 ^ 53.

Definition exact_document (inv : Inventory) : Prop :=
  exact (quantity inv) ∧ exact (reserved inv) ∧ exact (available inv).

(** The numbers of an accepted request stay in the exact range: no line
    asks for a negative quantity, and each product's counters are exact
    before the request and with the whole of what the request asks of the
    product reserved (so they are after each line, which lies between). *)
Definition exact_reserve (m : gmap string Inventory) (items : list Item) : Prop :=
  Forall (λ it, 0 ≤ item_quantity it ≤ 2 ^ 53) items
  ∧ ∀ p inv, m !! p = Some inv →
      exact_document inv
      ∧ exact (reserved inv + requested_total p items)
      ∧ exact (quantity inv - (reserved inv + requested_total p items)).

(** The numbers of a round trip of [q] units on the document [inv] stay
    in the exact range: the quantity, the stored counters, and [reserved]
    and [available] while the units are held. *)
Definition exact_round_trip (inv : Inventory) (q : Z) : Prop :=
  exact q ∧ exact_document inv
  ∧ exact (reserved inv + q) ∧ exact (quantity inv - (reserved inv + q)).

(** C3's accepted branch as the specification words it: the call creates
    one reservation per (order, product). *)
Definition one_reservation_per_product
    (oid : string) (items : list Item) (now : Z) (s : Ledger) : Prop :=
  Forall (satisfiable (inventory s)) items →
  ∀ p, p ∈ item_productId <$> items →
    ∃ r, filter (λ r, orderId r = oid ∧ productId r = p)
                (drop (length (reservations s))
                      (reservations (ledger (reserve oid items now s))))
         = [r].

(** ** The accounting invariant *)

Definition item_invariant (inv : Inventory) : Prop :=
  available inv = quantity inv - reserved inv ∧ 0 ≤ reserved inv ∧ 0 ≤ available inv.

Definition ledger_invariant (s : Ledger) : Prop :=
  ∀ p inv, inventory s !! p = Some inv → item_invariant inv.

(** The units of [p] held by reservations in status [reserved]. *)
Definition outstanding (p : string) (rs : list Reservation) : Z :=
  sumZ (rquantity <$> filter (λ r, productId r = p ∧ status r = Reserved) rs).

(** What the loops maintain on well-formed requests: every document is well
    formed, not oversold, and its [reserved] counter is the total of the
    reservations still reserved on it; every such reservation holds a
    non-negative quantity of a product that has a document. *)
Definition consistent (s : Ledger) : Prop :=
  (∀ p inv, inventory s !! p = Some inv →
     available inv = quantity inv - reserved inv
     ∧ 0 ≤ available inv
     ∧ reserved inv = outstanding p (reservations s))
  ∧ (∀ r, r ∈ reservations s → status r = Reserved →
       0 ≤ rquantity r ∧ is_Some (inventory s !! productId r)).

(** The operations of the ledger, and a run of them. *)
Inductive Op :=
| Reserve (oid : string) (items : list Item) (now : Z)
| Confirm (oid : string)
| Release (oid : string)
| SweepExpired (now : Z).

Definition step (s : Ledger) (op : Op) : Ledger :=
  match op with
  | Reserve oid items now => ledger (reserve oid items now s)
  | Confirm oid => confirmReservation oid s
  | Release oid => releaseReservation oid s
  | SweepExpired now => sweepExpired now s
  end.

Definition well_formed (op : Op) : Prop :=
  match op with
  | Reserve oid items _ => oid ≠ "" ∧ well_formed_request items
  | _ => True
  end.

(** ** Round trip *)

(** The order's reservations of [p] that are still [reserved]. *)
Definition holds_reserved (oid p : string) (rs : list Reservation) : Prop :=
  ∃ r, r ∈ rs ∧ orderId r = oid ∧ productId r = p ∧ status r = Reserved.

(** The round trip as the specification words it: from any ledger in which
    [p] holds at least [q] available units, reserving [q] units of [p] for
    an order and then releasing the order brings [reserved] and [available]
    of [p] back to what they were. *)
Definition round_trip_restores (oid p : string) (q now : Z) (s : Ledger) : Prop :=
  ∀ inv, inventory s !! p = Some inv → q ≤ available inv →
    ∃ inv', inventory (releaseReservation oid (ledger (reserve oid [mkItem p q] now s))) !! p
              = Some inv'
            ∧ reserved inv' = reserved inv ∧ available inv' = available inv.

(** ** The expiry sweep *)

(** The order ids of a call list, each kept at its first occurrence. *)
Fixpoint distinct_from (seen l : list string) : list string :=
  match l with
  | [] => []
  | o :: l' =>
      if decide (o ∈ seen) then distinct_from seen l'
      else o :: distinct_from (o :: seen) l'
  end.

Definition distinct (l : list string) : list string := distinct_from [] l.

(** The sweep as the specification words it, in two parts: it acts on
    exactly the orders that have a reservation in status [reserved] with
    [expiresAt <= now], and it calls Release once per such order. *)
Definition sweep_selects_due (now : Z) (s : Ledger) : Prop :=
  ∀ o, o ∈ sweep_calls now s
       ↔ ∃ r, r ∈ reservations s ∧ status r = Reserved ∧ expiresAt r ≤ now
              ∧ orderId r = o.

Definition sweep_once_per_order (now : Z) (s : Ledger) : Prop :=
  NoDup (sweep_calls now s).

(** ** Example ledgers (the scenarios of the specification) *)

(** One product, ten units on hand, nothing reserved. *)
Definition stocked : Ledger :=
  {| inventory := {[ "p1" := mkInventory 10 0 10 ]}; reservations := [] |}.

(** Two products, ten and five units on hand, nothing reserved. *)
Definition two_products : Ledger :=
  {| inventory := {[ "p1" := mkInventory 10 0 10; "p2" := mkInventory 5 0 5 ]};
     reservations := [] |}.

(** Order O1 holds three units of p1. *)
Definition held : Ledger := ledger (reserve "O1" [mkItem "p1" 3] 0 stocked).

(** Order O1 has two lines past their deadline; the only line of order O2
    reaches its deadline at time 200. *)
Definition overdue : Ledger :=
  {| inventory := {[ "p1" := mkInventory 10 6 4; "p2" := mkInventory 5 1 4 ]};
     reservations :=
       [ mkReservation "O1" "p1" 2 Reserved 0 100;
         mkReservation "O1" "p2" 1 Reserved 0 100;
         mkReservation "O2" "p1" 4 Reserved 100 200 ] |}.

(** ** The sweep, reservation by reservation *)

(** What a run of Release calls leaves of a reservation: one that is
    [reserved], belongs to a called order and names a product with a
    document is released; any other is left as it is. *)
Definition swept (calls : list string) (m : gmap string Inventory) (r : Reservation)
  : Reservation :=
  if bool_decide (status r = Reserved ∧ orderId r ∈ calls)
  then match m !! productId r with Some _ => set_status Released r | None => r end
  else r.

(** Release called for each order id of a list, in order. *)
Definition release_calls (s : Ledger) (calls : list string) : Ledger :=
  foldl (λ acc oid, releaseReservation oid acc) s calls.

(** Order O1 holds a line past its deadline and a line that is not due
    before time 500. *)
Definition mixed_deadlines : Ledger :=
  {| inventory := {[ "p1" := mkInventory 10 2 8; "p2" := mkInventory 5 1 4 ]};
     reservations :=
       [ mkReservation "O1" "p1" 2 Reserved 0 100;
         mkReservation "O1" "p2" 1 Reserved 0 500 ] |}.

(** The calls that write to the ledger: the two POST endpoints, the two
    branches of the payment handler, and the sweep. *)
Inductive ApiCall :=
| Stock (pid : string) (q : Z)
| ReserveLines (oid : string) (lines : list Line)
| ConfirmOrder (oid : string)
| ReleaseOrder (oid : string)
| Sweep (now : Z).

Definition api_step (s : Ledger) (c : ApiCall) : Ledger :=
  match c with
  | Stock pid q => (createInventory pid q s).2
  | ReserveLines oid lines => ledger (reserve_at oid lines s)
  | ConfirmOrder oid => confirmReservation oid s
  | ReleaseOrder oid => releaseReservation oid s
  | Sweep now => sweepExpired now s
  end.

(** Stocked and requested quantities are integers from 0 to 2^53; a
    stocking request names its product; a Reserve request carries an
    order id and names each product on one line only. *)
Definition api_well_formed (c : ApiCall) : Prop :=
  match c with
  | Stock pid q => pid ≠ "" ∧ 0 ≤ q ≤ 2 ^ 53
  | ReserveLines oid lines =>
      oid ≠ ""
      ∧ NoDup (item_productId <$> lines.*1)
      ∧ Forall (λ it, 0 ≤ item_quantity it ≤ 2 ^ 53) lines.*1
  | _ => True
  end.

(** No product holds more than 2^53 units. *)
Definition capped (s : Ledger) : Prop :=
  ∀ p inv, inventory s !! p = Some inv → quantity inv ≤ 2 ^ 53.

Definition empty_ledger : Ledger := {| inventory := ∅; reservations := [] |}.

(** What may become of a stored reservation: every field but the status is
    kept, and the status is kept too unless it was [reserved]. *)
Definition same_but_settled (r r' : Reservation) : Prop :=
  orderId r' = orderId r ∧ productId r' = productId r ∧ rquantity r' = rquantity r
  ∧ createdAt r' = createdAt r ∧ expiresAt r' = expiresAt r
  ∧ (status r' = status r ∨ status r = Reserved).

(** The order holds nothing in status [reserved]. *)
Definition nothing_reserved (oid : string) (rs : list Reservation) : Prop :=
  ∀ r, r ∈ rs → orderId r = oid → status r ≠ Reserved.

(** Every stored document is well formed. *)
Definition documents_well_formed (m : gmap string Inventory) : Prop :=
  ∀ p inv, m !! p = Some inv → available inv = quantity inv - reserved inv.

End InventorySpec.

(* ===================================================================== *)
(** * Vocabulary of the properties: order state machine *)
(* ===================================================================== *)

Module OrderSpec.
Import OrderService.

(** An event delivered to the order service. *)
Inductive Event :=
| OnPayment (p : PaymentProcessed)
| OnInventory (u : InventoryUpdated).

Definition event_order (ev : Event) : string :=
  match ev with
  | OnPayment p => pp_orderId p
  | OnInventory u => iu_orderId u
  end.

(** The reaction of the service to an event. *)
Definition react (now : Z) (ev : Event) (os : gmap string Order) : gmap string Order :=
  match ev with
  | OnPayment p => handlePaymentProcessed now p os
  | OnInventory u => handleInventoryUpdated now u os
  end.



(** An order whose first payment failed. *)
Definition failed_order : gmap string Order :=
  {[ "ORD-1" := mkOrder "ORD-1" "u1" [mkLineItem "p1" 2 25] 50 failed None 1 5 ]}.



(** The handling of an unknown order as the specification words it: a
    [payment.processed] message for an order id without a stored order is
    not acknowledged. *)
Definition unknown_order_unacked (now : Z) (p : PaymentProcessed) (st : Store) : Prop :=
  orders st !! pp_orderId p = None →
  (consume_payment_processed now (Some p) st).2 ≠ Some Acked.

(** A run of deliveries, each with the handler's clock reading. *)
Definition react_all (os : gmap string Order) (evs : list (Z * Event)) : gmap string Order :=
  foldl (λ acc e, react e.1 e.2 acc) os evs.

(** The data of an order that is fixed at creation. *)
Definition same_order_data (o o' : Order) : Prop :=
  orderId o' = orderId o ∧ userId o' = userId o ∧ items o' = items o
  ∧ totalAmount o' = totalAmount o ∧ createdAt o' = createdAt o.

End OrderSpec.

(* ===================================================================== *)
(** * Vocabulary of the properties: payment processor *)
(* ===================================================================== *)

Module PaymentSpec.
Import PaymentService.



(** The row and the event of one invocation. *)
Definition payment_row (t_id t_txn : Z) (ok : bool) (od : OrderData) : Payment :=
  mkPayment ("PAY-" +:+ pretty t_id) (orderId od) (userId od) (totalAmount od)
            (if ok then "success" else "failed")
            (if ok then Some ("TXN-" +:+ pretty t_txn) else None).

Definition payment_event (row : Payment) : PaymentProcessed :=
  mkPaymentProcessed (order_id row) (payment_id row) (status row) (amount row)
                     (transaction_id row).

(** The event tells of the row: the same order, payment id, status and
    transaction id.  The amounts are left out: the event carries the number
    of the order as received, the row what the column keeps of it. *)
Definition announces (ev : PaymentProcessed) (row : Payment) : Prop :=
  ev_orderId ev = order_id row ∧ ev_paymentId ev = payment_id row
  ∧ ev_status ev = status row ∧ ev_transactionId ev = transaction_id row.

(** An order the columns of the table accept: ids of at most 100
    characters ([VARCHAR(100)]) and an amount of at most eight digits
    before the point ([DECIMAL(10, 2)]). *)
Definition fits_columns (od : OrderData) : Prop :=
  (String.length (orderId od) ≤ 100)%nat
  ∧ (String.length (userId od) ≤ 100)%nat
  ∧ - 10 ^ 8 < totalAmount od < 10 ^ 8.

(** Order O1 is paid at millisecond 1000; order O2 arrives in the same
    millisecond. *)
Definition first_payment : list Payment * list PaymentProcessed :=
  processOrderPayment 1000 2000 true (mkOrderData "O1" "u1" 50) [].

Definition same_ms_payment : list Payment * list PaymentProcessed :=
  processOrderPayment 1000 2001 true (mkOrderData "O2" "u2" 70) first_payment.1.

(** A first attempt that the gateway declines, then two retries that it
    accepts. *)
Definition declined : list Payment :=
  (processOrderPayment 1000 2000 false (mkOrderData "O1" "u1" 50) []).1.

Definition retried_once : list Payment := (retryPayment 3000 4000 true "O1" declined).2.1.


End PaymentSpec.

(* ===================================================================== *)
(** * Properties of the inventory ledger *)
(* ===================================================================== *)

Module InventoryFacts.
Import InventoryService InventorySpec.

(** ** Counter arithmetic *)

Lemma inventory_eta (a b : Inventory) :
  quantity a = quantity b → reserved a = reserved b → available a = available b → a = b.
Proof. destruct a, b; simpl; congruence. Qed.

Lemma shift_shift dq1 dr1 dq2 dr2 inv :
  shift dq2 dr2 (shift dq1 dr1 inv) = shift (dq1 + dq2) (dr1 + dr2) inv.
Proof. apply inventory_eta; simpl; lia. Qed.

Lemma touch_lookup m t p :
  touch m t !! p = net p [t] <$> m !! p.
Proof.
  unfold touch, net, on_product.
  destruct (decide (t_product t = p)) as [Heq|Hne].
  - rewrite filter_cons_True by done. simpl. rewrite Heq.
    destruct (m !! p) as [inv|] eqn:E.
    + rewrite lookup_insert_eq. simpl. f_equal.
      apply inventory_eta; simpl; lia.
    + done.
  - rewrite filter_cons_False by done. simpl.
    destruct (m !! t_product t) as [inv|] eqn:E.
    + rewrite lookup_insert_ne by done. by destruct (m !! p).
    + by destruct (m !! p).
Qed.

Lemma net_cons p t ts inv :
  net p (t :: ts) inv = net p ts (net p [t] inv).
Proof.
  unfold net, on_product.
  destruct (decide (t_product t = p)) as [Heq|Hne].
  - rewrite !filter_cons_True by done. simpl.
    destruct (filter _ ts) as [|t' l] eqn:E; simpl.
    + apply inventory_eta; simpl; lia.
    + rewrite shift_shift. f_equal; lia.
  - rewrite !filter_cons_False by done. done.
Qed.

Lemma foldl_touch_lookup ts m p :
  foldl touch m ts !! p = net p ts <$> m !! p.
Proof.
  revert m. induction ts as [|t ts IH]; intros m; simpl.
  - by destruct (m !! p).
  - rewrite IH, touch_lookup.
    destruct (m !! p) as [inv|]; simpl; [|done].
    by rewrite <- net_cons.
Qed.

(** ** The check loop of [reserve] *)

Lemma check_item_None m it : check_item m it = None ↔ satisfiable m it.
Proof.
  unfold check_item, satisfiable.
  destruct (m !! item_productId it) as [inv|].
  - case_bool_decide; split; try done.
    + intros [inv' [[= <-] ?]]. lia.
    + intros _. exists inv. split; [done|lia].
  - split; [done|]. by intros [inv' [? _]].
Qed.

Lemma check_item_Some m it e :
  check_item m it = Some e → e = shortfall_of m it ∧ ¬ satisfiable m it.
Proof.
  intros H. split.
  - revert H. unfold check_item, shortfall_of, available_of.
    destruct (m !! item_productId it) as [inv|]; [|congruence].
    case_bool_decide; congruence.
  - rewrite <- check_item_None. congruence.
Qed.

Lemma check_item_short m it :
  ¬ satisfiable m it → check_item m it = Some (shortfall_of m it).
Proof.
  intros H. destruct (check_item m it) as [e|] eqn:E.
  - apply check_item_Some in E as [-> _]. done.
  - apply check_item_None in E. done.
Qed.

Lemma insufficientItems_nil m items :
  insufficientItems m items = [] ↔ Forall (satisfiable m) items.
Proof.
  unfold insufficientItems. induction items as [|it items IH]; simpl.
  - split; [constructor|done].
  - destruct (check_item m it) as [e|] eqn:E; simpl.
    + split; [done|]. intros H. apply Forall_cons in H as [H _].
      apply check_item_None in H. congruence.
    + rewrite IH. apply check_item_None in E.
      split; [by constructor|]. by intros [_ ?]%Forall_cons.
Qed.

(** ** The loops as folds of touches *)

Lemma touch_is_Some m t p : is_Some (touch m t !! p) ↔ is_Some (m !! p).
Proof. rewrite touch_lookup. by rewrite fmap_is_Some. Qed.

Lemma foldl_touch_is_Some ts m p : is_Some (foldl touch m ts !! p) ↔ is_Some (m !! p).
Proof. rewrite foldl_touch_lookup. by rewrite fmap_is_Some. Qed.

Lemma foldl_touch_None ts m p : foldl touch m ts !! p = None ↔ m !! p = None.
Proof. rewrite foldl_touch_lookup. by rewrite fmap_None. Qed.

Lemma reserve_line_thrown oid lines a :
  foldl (reserve_line oid) (Thrown a) lines = Thrown a.
Proof. induction lines as [|l lines IH]; simpl; [done|exact IH]. Qed.

Lemma reserve_line_loop oid lines s created :
  oid ≠ "" →
  Forall (λ l : Line, is_Some (inventory s !! item_productId l.1)) lines →
  ∃ s', foldl (reserve_line oid) (Done (s, created)) lines
          = Done (s', created ++ (new_reservation_at oid <$> lines))
        ∧ inventory s' = foldl touch (inventory s) (reserve_touch <$> lines.*1)
        ∧ reservations s' = reservations s ++ (new_reservation_at oid <$> lines).
Proof.
  intros Hoid. revert s created.
  induction lines as [|l lines IH]; intros s created Hall; simpl.
  - exists s. by rewrite !app_nil_r.
  - apply Forall_cons in Hall as [[inv Hinv] Hall].
    rewrite Hinv. rewrite bool_decide_eq_false_2 by done.
    match goal with |- context [foldl _ (Done (?x, _)) lines] => set (s1 := x) end.
    assert (Hs1 : inventory s1 = touch (inventory s) (reserve_touch l.1)).
    { unfold touch; simpl. rewrite Hinv. f_equal.
      apply inventory_eta; simpl; lia. }
    destruct (IH s1 (created ++ [new_reservation_at oid l]))
      as (s' & Hrun & Hi & Hr).
    { eapply Forall_impl; [exact Hall|]. intros l' H; cbv beta in H |- *.
      rewrite Hs1. by apply touch_is_Some. }
    exists s'. split; [|split].
    + fold (new_reservation_at oid l). rewrite Hrun. by rewrite <- app_assoc.
    + by rewrite Hi, Hs1.
    + rewrite Hr. simpl. by rewrite <- app_assoc.
Qed.

Lemma satisfiable_is_Some m it : satisfiable m it → is_Some (m !! item_productId it).
Proof. intros (inv & H & _). eauto. Qed.

(** A request the check loop accepts runs the reserve loop to its end. *)
Lemma reserve_at_accepted oid lines s :
  oid ≠ "" →
  Forall (satisfiable (inventory s)) lines.*1 →
  ∃ s', reserve_at oid lines s
          = {| response := Reserved200 (view_of <$> (new_reservation_at oid <$> lines));
               ledger := s'; published := [] |}
        ∧ inventory s' = foldl touch (inventory s) (reserve_touch <$> lines.*1)
        ∧ reservations s' = reservations s ++ (new_reservation_at oid <$> lines).
Proof.
  intros Hoid Hall. unfold reserve_at.
  rewrite (proj2 (insufficientItems_nil _ _) Hall).
  destruct (reserve_line_loop oid lines s [] Hoid) as (s' & Hrun & Hi & Hr).
  { rewrite Forall_fmap in Hall. eapply Forall_impl; [exact Hall|].
    intros l. apply satisfiable_is_Some. }
  rewrite Hrun. simpl. eauto.
Qed.

Lemma reserve_at_rejected oid lines s :
  ¬ Forall (satisfiable (inventory s)) lines.*1 →
  reserve_at oid lines s
    = {| response := Rejected400 (insufficientItems (inventory s) lines.*1);
         ledger := s;
         published := [EvInsufficient oid (insufficientItems (inventory s) lines.*1)] |}.
Proof.
  intros Hex. unfold reserve_at.
  destruct (insufficientItems (inventory s) lines.*1) as [|e l] eqn:E; [|done].
  apply insufficientItems_nil in E. done.
Qed.

(** Without an order id the first iteration saves the inventory document
    and raises on the reservation. *)
Lemma reserve_at_unnamed l lines s :
  Forall (satisfiable (inventory s)) (l :: lines).*1 →
  reserve_at "" (l :: lines) s
    = {| response := Error500;
         ledger := {| inventory := touch (inventory s) (reserve_touch l.1);
                      reservations := reservations s |};
         published := [] |}.
Proof.
  intros Hall. unfold reserve_at.
  rewrite (proj2 (insufficientItems_nil _ _) Hall).
  apply Forall_cons in Hall as [(inv & Hinv & _) _].
  simpl. rewrite Hinv. rewrite reserve_line_thrown. do 2 f_equal.
  unfold touch; simpl. rewrite Hinv. f_equal.
  apply inventory_eta; simpl; lia.
Qed.

Lemma at_instant_items now (items : list Item) : (at_instant now <$> items).*1 = items.
Proof. rewrite <- list_fmap_compose. apply list_fmap_id. Qed.

Lemma at_instant_reservations oid now (items : list Item) :
  new_reservation_at oid <$> (at_instant now <$> items)
  = new_reservation oid now <$> items.
Proof. by rewrite <- list_fmap_compose. Qed.

Lemma reserve_accepted oid items now s :
  oid ≠ "" →
  Forall (satisfiable (inventory s)) items →
  ∃ s', reserve oid items now s
          = {| response := Reserved200 (view_of <$> (new_reservation oid now <$> items));
               ledger := s'; published := [] |}
        ∧ inventory s' = foldl touch (inventory s) (reserve_touch <$> items)
        ∧ reservations s' = reservations s ++ (new_reservation oid now <$> items).
Proof.
  intros Hoid Hall. unfold reserve.
  destruct (reserve_at_accepted oid (at_instant now <$> items) s Hoid)
    as (s' & Hres & Hi & Hr).
  { by rewrite at_instant_items. }
  rewrite at_instant_items in Hi.
  rewrite at_instant_reservations in Hres, Hr. eauto.
Qed.

Lemma reserve_rejected oid items now s :
  ¬ Forall (satisfiable (inventory s)) items →
  reserve oid items now s
    = {| response := Rejected400 (insufficientItems (inventory s) items);
         ledger := s;
         published := [EvInsufficient oid (insufficientItems (inventory s) items)] |}.
Proof.
  intros Hex. unfold reserve.
  rewrite reserve_at_rejected by (by rewrite at_instant_items).
  by rewrite at_instant_items.
Qed.

Lemma elem_of_insufficientItems m items e :
  e ∈ insufficientItems m items
  ↔ ∃ it, it ∈ items ∧ ¬ satisfiable m it ∧ e = shortfall_of m it.
Proof.
  unfold insufficientItems. rewrite list_elem_of_omap. split.
  - intros (it & Hin & Hc). apply check_item_Some in Hc as [-> Hn]. eauto.
  - intros (it & Hin & Hn & ->). exists it. split; [done|].
    by apply check_item_short.
Qed.

(** ** The settle loop *)

Section settle.
Variables (dq dr : Z → Z) (st : ReservationStatus).

Lemma settle_one_inventory s d :
  inventory (settle_one dq dr st s d) = touch (inventory s) (settle_touch dq dr d).
Proof.
  unfold settle_one, touch, settle_touch; simpl.
  by destruct (inventory s !! productId d.2).
Qed.

Lemma settle_inventory snap s :
  inventory (foldl (settle_one dq dr st) s snap)
  = foldl touch (inventory s) (settle_touch dq dr <$> snap).
Proof.
  revert s. induction snap as [|d snap IH]; intros s; simpl; [done|].
  by rewrite IH, settle_one_inventory.
Qed.

Lemma settled_ext pred m m' r :
  (∀ p, is_Some (m !! p) ↔ is_Some (m' !! p)) →
  settled st pred m r = settled st pred m' r.
Proof.
  intros H. unfold settled. destruct (pred r); [|done].
  specialize (H (productId r)).
  destruct (m !! productId r), (m' !! productId r); try done.
  - destruct H as [H _]. destruct H as [? ?]; [eauto|done].
  - destruct H as [_ H]. destruct H as [? ?]; [eauto|done].
Qed.

Lemma settle_reservations_from pred rs pre s :
  reservations s = pre ++ rs →
  reservations
    (foldl (settle_one dq dr st) s
       (filter (λ d : Doc, pred d.2 = true)
               (imap (λ i, pair (length pre + i)%nat) rs)))
  = pre ++ (settled st pred (inventory s) <$> rs).
Proof.
  revert pre s. induction rs as [|r rs IH]; intros pre s Hs; simpl.
  - done.
  - assert (Hshift : imap ((λ i, pair (length pre + i)%nat) ∘ S) rs
                     = imap (λ i, pair (length (pre ++ [r]) + i)%nat) rs
                       :> list Doc).
    { apply imap_ext. intros i x _. simpl. rewrite length_app. simpl.
      f_equal. lia. }
    assert (Hshift' : ∀ r', imap ((λ i, pair (length pre + i)%nat) ∘ S) rs
                     = imap (λ i, pair (length (pre ++ [r']) + i)%nat) rs
                       :> list Doc).
    { intros r'. rewrite Hshift. by rewrite !length_app. }
    unfold settled at 1.
    destruct (pred r) eqn:Hp.
    + rewrite filter_cons_True by done. simpl.
      unfold settle_one at 2. simpl.
      destruct (inventory s !! productId r) as [inv|] eqn:Hinv.
      * rewrite (Hshift' (set_status st r)).
        rewrite IH.
        -- simpl. rewrite <- app_assoc. simpl. do 2 f_equal.
           apply list_fmap_ext. intros _ x _. apply settled_ext.
           intros p. destruct (decide (productId r = p)) as [<-|Hne].
           ++ rewrite lookup_insert_eq, Hinv. split; eauto.
           ++ by rewrite lookup_insert_ne.
        -- simpl. rewrite Hs, insert_app_r. simpl. by rewrite <- app_assoc.
      * rewrite Hshift. rewrite IH.
        -- by rewrite <- app_assoc.
        -- rewrite Hs. by rewrite <- app_assoc.
    + rewrite filter_cons_False by (simpl; congruence).
      rewrite Hshift. rewrite IH.
      * by rewrite <- app_assoc.
      * rewrite Hs. by rewrite <- app_assoc.
Qed.

Lemma settle_reservations pred s :
  reservations (foldl (settle_one dq dr st) s (find pred (reservations s)))
  = settled st pred (inventory s) <$> reservations s.
Proof.
  unfold find.
  apply (settle_reservations_from pred (reservations s) [] s). done.
Qed.

(** A loop whose every document lacks an inventory record changes nothing. *)
Lemma settle_nothing snap s :
  Forall (λ d : Doc, inventory s !! productId d.2 = None) snap →
  foldl (settle_one dq dr st) s snap = s.
Proof.
  induction 1 as [|d snap Hd _ IH]; simpl; [done|].
  unfold settle_one at 2. by rewrite Hd.
Qed.

Lemma elem_of_find pred (rs : list Reservation) (d : Doc) :
  d ∈ find pred rs ↔ rs !! d.1 = Some d.2 ∧ pred d.2 = true.
Proof.
  unfold find. rewrite list_elem_of_filter, elem_of_lookup_imap.
  destruct d as [i r]; simpl. split.
  - intros [Hp (j & y & [= -> ->] & Hl)]. done.
  - intros [Hl Hp]. split; [done|]. eauto.
Qed.

(** Once the loop has run for a selection that only picks reservations in
    status [reserved], running it again finds nothing it can settle. *)
Lemma settle_twice pred s :
  st ≠ Reserved →
  (∀ r, pred r = true → status r = Reserved) →
  let s1 := foldl (settle_one dq dr st) s (find pred (reservations s)) in
  foldl (settle_one dq dr st) s1 (find pred (reservations s1)) = s1.
Proof.
  intros Hst Hpred s1. apply settle_nothing.
  apply Forall_forall. intros d Hd.
  apply elem_of_find in Hd as [Hl Hp].
  unfold s1 in Hl. rewrite settle_reservations, list_lookup_fmap in Hl.
  destruct (reservations s !! d.1) as [r|] eqn:Hr; simpl in Hl; [|done].
  injection Hl as Hl.
  unfold s1. rewrite settle_inventory. apply foldl_touch_None.
  revert Hl Hp. unfold settled.
  destruct (pred r) eqn:Hpr.
  - destruct (inventory s !! productId r) eqn:Hinv.
    + intros <- Hp. apply Hpred in Hp. simpl in Hp. congruence.
    + intros <- _. done.
  - intros <-. congruence.
Qed.
End settle.

Lemma confirm_one_settle s d :
  confirm_one s d = settle_one Z.opp Z.opp Confirmed s d.
Proof. reflexivity. Qed.

Lemma release_one_settle s d :
  release_one s d = settle_one (λ _, 0) Z.opp Released s d.
Proof.
  unfold release_one, settle_one.
  destruct (inventory s !! productId d.2); [|done].
  do 2 f_equal. apply inventory_eta; simpl; lia.
Qed.

Lemma foldl_pointwise {A B} (f g : A → B → A) (l : list B) (a : A) :
  (∀ a b, f a b = g a b) → foldl f a l = foldl g a l.
Proof.
  intros H. revert a. induction l as [|b l IH]; intros a; simpl; [done|].
  by rewrite H, IH.
Qed.

Lemma confirmReservation_settle oid s :
  confirmReservation oid s
  = foldl (settle_one Z.opp Z.opp Confirmed) s (find (reserved_of oid) (reservations s)).
Proof. reflexivity. Qed.

Lemma releaseReservation_settle oid s :
  releaseReservation oid s
  = foldl (settle_one (λ _, 0) Z.opp Released) s (find (reserved_of oid) (reservations s)).
Proof. apply foldl_pointwise, release_one_settle. Qed.

Lemma reserved_of_true oid r :
  reserved_of oid r = true ↔ orderId r = oid ∧ status r = Reserved.
Proof.
  unfold reserved_of. rewrite andb_true_iff, !bool_decide_eq_true. done.
Qed.

Lemma confirmReservation_twice oid s :
  confirmReservation oid (confirmReservation oid s) = confirmReservation oid s.
Proof.
  rewrite !confirmReservation_settle.
  apply (settle_twice Z.opp Z.opp Confirmed); [done|].
  intros r H. by apply reserved_of_true in H as [_ ?].
Qed.

Lemma releaseReservation_twice oid s :
  releaseReservation oid (releaseReservation oid s) = releaseReservation oid s.
Proof.
  rewrite !releaseReservation_settle.
  apply (settle_twice (λ _, 0) Z.opp Released); [done|].
  intros r H. by apply reserved_of_true in H as [_ ?].
Qed.

Lemma confirmReservation_reservations oid s :
  reservations (confirmReservation oid s)
  = settled Confirmed (reserved_of oid) (inventory s) <$> reservations s.
Proof. rewrite confirmReservation_settle. apply settle_reservations. Qed.

Lemma releaseReservation_reservations oid s :
  reservations (releaseReservation oid s)
  = settled Released (reserved_of oid) (inventory s) <$> reservations s.
Proof. rewrite releaseReservation_settle. apply settle_reservations. Qed.

Lemma confirmReservation_inventory oid s :
  inventory (confirmReservation oid s)
  = foldl touch (inventory s)
      (confirm_touch <$> find (reserved_of oid) (reservations s)).
Proof. rewrite confirmReservation_settle. apply settle_inventory. Qed.

Lemma releaseReservation_inventory oid s :
  inventory (releaseReservation oid s)
  = foldl touch (inventory s)
      (release_touch <$> find (reserved_of oid) (reservations s)).
Proof. rewrite releaseReservation_settle. apply settle_inventory. Qed.

(** A reservation that is not selected, or is no longer [reserved], is
    left as it is. *)
Lemma settled_skip st pred m r :
  (∀ r, pred r = true → status r = Reserved) →
  status r ≠ Reserved → settled st pred m r = r.
Proof.
  intros Hpred Hr. unfold settled.
  destruct (pred r) eqn:Hp; [|done]. apply Hpred in Hp. done.
Qed.

(** A reservation still [reserved] after the loop was not written by it. *)
Lemma settled_still_reserved st pred m r :
  st ≠ Reserved → status (settled st pred m r) = Reserved → settled st pred m r = r.
Proof.
  intros Hst. unfold settled.
  destruct (pred r); [|done].
  destruct (m !! productId r); [|done]. simpl. done.
Qed.

(** ** Totals of touches, and reserve followed by release *)

Lemma total_nil f p : total f p [] = 0.
Proof. done. Qed.

Lemma total_cons f p t ts :
  total f p (t :: ts)
  = (if decide (t_product t = p) then f t else 0) + total f p ts.
Proof.
  unfold total, on_product. case_decide.
  - by rewrite filter_cons_True.
  - by rewrite filter_cons_False.
Qed.

Lemma total_app f p ts1 ts2 :
  total f p (ts1 ++ ts2) = total f p ts1 + total f p ts2.
Proof.
  induction ts1 as [|t ts1 IH]; simpl; [by rewrite total_nil|].
  rewrite !total_cons, IH. lia.
Qed.

Lemma net_total p ts inv :
  on_product p ts ≠ [] →
  net p ts inv = shift (total t_dq p ts) (total t_dr p ts) inv.
Proof. unfold net, total. by destruct (on_product p ts). Qed.

Lemma net_untouched p ts inv : on_product p ts = [] → net p ts inv = inv.
Proof. unfold net. by intros ->. Qed.

(** Touches whose shifts cancel leave a well-formed document as it was. *)
Lemma net_balanced p ts inv :
  total t_dq p ts = 0 → total t_dr p ts = 0 →
  available inv = quantity inv - reserved inv →
  net p ts inv = inv.
Proof.
  intros Hq Hr Hinv. destruct (on_product p ts) as [|t l] eqn:E.
  - by apply net_untouched.
  - rewrite net_total by (rewrite E; done). rewrite Hq, Hr.
    apply inventory_eta; simpl; lia.
Qed.

Lemma filter_all {A} (P : A → Prop) `{∀ x, Decision (P x)} (l : list A) :
  Forall P l → filter P l = l.
Proof.
  induction 1 as [|x l Hx _ IH]; [done|].
  rewrite filter_cons_True by done. by rewrite IH.
Qed.

Lemma filter_none {A} (P : A → Prop) `{∀ x, Decision (P x)} (l : list A) :
  Forall (λ x, ¬ P x) l → filter P l = [].
Proof.
  induction 1 as [|x l Hx _ IH]; [done|].
  by rewrite filter_cons_False.
Qed.

(** The documents [find] returns for a collection that has just grown. *)
Lemma find_app pred rs new :
  find pred (rs ++ new)
  = find pred rs
    ++ filter (λ d : Doc, pred d.2 = true)
              (imap (λ n, pair (length rs + n)%nat) new).
Proof. unfold find. by rewrite imap_app, filter_app. Qed.

Lemma find_new_reservations oid (rs : list Reservation) (lines : list Line) :
  filter (λ d : Doc, reserved_of oid d.2 = true)
         (imap (λ n, pair (length rs + n)%nat) (new_reservation_at oid <$> lines))
  = imap (λ n, pair (length rs + n)%nat) (new_reservation_at oid <$> lines).
Proof.
  apply filter_all. apply Forall_forall. intros d Hd.
  apply elem_of_lookup_imap in Hd as (i & r & -> & Hr).
  apply list_lookup_fmap_Some in Hr as (it & ? & ?). subst r.
  simpl. apply reserved_of_true. done.
Qed.

Lemma release_touch_new oid (k : nat) (lines : list Line) :
  release_touch <$> imap (λ n, pair (k + n)%nat) (new_reservation_at oid <$> lines)
  = (λ l : Line, mkTouch (item_productId l.1) 0 (- item_quantity l.1)) <$> lines.
Proof.
  rewrite fmap_imap, imap_fmap.
  rewrite <- (imap_const
    (λ l : Line, mkTouch (item_productId l.1) 0 (- item_quantity l.1))).
  apply imap_ext. done.
Qed.

Lemma confirm_touch_new oid (k : nat) (lines : list Line) :
  confirm_touch <$> imap (λ n, pair (k + n)%nat) (new_reservation_at oid <$> lines)
  = (λ l : Line,
       mkTouch (item_productId l.1) (- item_quantity l.1) (- item_quantity l.1))
      <$> lines.
Proof.
  rewrite fmap_imap, imap_fmap.
  rewrite <- (imap_const
    (λ l : Line,
       mkTouch (item_productId l.1) (- item_quantity l.1) (- item_quantity l.1))).
  apply imap_ext. done.
Qed.

Lemma total_fmap {A} (g : A → Touch) (f : Touch → Z) p (l : list A) :
  total f p (g <$> l)
  = sumZ ((λ a, if decide (t_product (g a) = p) then f (g a) else 0) <$> l).
Proof.
  induction l as [|a l IH]; [done|].
  rewrite !fmap_cons, total_cons, IH. done.
Qed.

Lemma total_zero {A} (g : A → Touch) (f : Touch → Z) p (l : list A) :
  (∀ a, f (g a) = 0) → total f p (g <$> l) = 0.
Proof.
  intros H. induction l as [|a l IH]; [done|].
  rewrite fmap_cons, total_cons, IH, H. by case_decide.
Qed.

Lemma total_opposite {A} (g h : A → Touch) (f : Touch → Z) p (l : list A) :
  (∀ a, t_product (g a) = t_product (h a)) →
  (∀ a, f (g a) + f (h a) = 0) →
  total f p (g <$> l) + total f p (h <$> l) = 0.
Proof.
  intros Hp H. induction l as [|a l IH]; [done|].
  rewrite !fmap_cons, !total_cons, <- Hp. specialize (H a).
  case_decide; lia.
Qed.

Lemma total_release_none f oid p rs :
  ¬ holds_reserved oid p rs →
  total f p (release_touch <$> find (reserved_of oid) rs) = 0.
Proof.
  intros Hno. unfold total, on_product.
  rewrite filter_none; [done|].
  apply Forall_forall. intros t Ht Hp.
  apply list_elem_of_fmap in Ht as (d & -> & Hd).
  apply elem_of_find in Hd as [Hl Hpred].
  apply reserved_of_true in Hpred as [Ho Hs].
  apply Hno. exists d.2. split; [|done].
  apply list_elem_of_lookup. eauto.
Qed.

(** Reserve, then release of the same order: every product of which the
    order held no reserved units beforehand gets its document back. *)
Lemma reserve_release_lookup oid (lines : list Line) s p :
  oid ≠ "" →
  Forall (satisfiable (inventory s)) lines.*1 →
  ¬ holds_reserved oid p (reservations s) →
  (∀ inv, inventory s !! p = Some inv → available inv = quantity inv - reserved inv) →
  inventory (releaseReservation oid (ledger (reserve_at oid lines s))) !! p
  = inventory s !! p.
Proof.
  intros Hoid Hall Hno Hwf.
  destruct (reserve_at_accepted oid lines s Hoid Hall) as (s1 & -> & Hi & Hr). simpl.
  rewrite <- list_fmap_compose in Hi.
  rewrite releaseReservation_inventory, Hi, Hr.
  rewrite <- foldl_app, foldl_touch_lookup.
  destruct (inventory s !! p) as [inv|] eqn:Hinv; simpl; [|done].
  f_equal. apply net_balanced; [| |by apply Hwf].
  - rewrite find_app, fmap_app, !total_app.
    rewrite find_new_reservations, release_touch_new.
    rewrite total_release_none by done.
    rewrite !total_zero by done. done.
  - rewrite find_app, fmap_app, !total_app.
    rewrite find_new_reservations, release_touch_new.
    rewrite total_release_none by done.
    pose proof (total_opposite (reserve_touch ∘ fst)
                  (λ l : Line, mkTouch (item_productId l.1) 0 (- item_quantity l.1))
                  t_dr p lines) as H.
    rewrite Z.add_0_l. apply H; intros; simpl; [done|lia].
Qed.

(** ** The expiry sweep *)

Lemma quiet_release_id oid s : quiet oid s → releaseReservation oid s = s.
Proof.
  intros H. rewrite releaseReservation_settle. apply settle_nothing.
  by apply Forall_forall.
Qed.

Lemma quiet_after_release oid oid' s :
  oid = oid' ∨ quiet oid s → quiet oid (releaseReservation oid' s).
Proof.
  intros Hq d Hd.
  apply elem_of_find in Hd as [Hl Hp].
  rewrite releaseReservation_reservations, list_lookup_fmap in Hl.
  destruct (reservations s !! d.1) as [r|] eqn:Hr; simpl in Hl; [|done].
  injection Hl as Hl.
  rewrite releaseReservation_inventory. apply foldl_touch_None.
  pose proof Hp as Hp'. apply reserved_of_true in Hp' as [Ho Hs].
  assert (Hsame : d.2 = r).
  { rewrite <- Hl. apply settled_still_reserved; [done|]. by rewrite Hl. }
  destruct Hq as [<-|Hq].
  - revert Hl. unfold settled. rewrite <- Hsame at 1. rewrite Hp.
    rewrite <- Hsame.
    destruct (inventory s !! productId d.2); [|done].
    intros Hl. rewrite <- Hl in Hs. done.
  - apply Hq. apply elem_of_find. by rewrite Hr, <- Hsame.
Qed.

Lemma elem_of_distinct_from seen l o :
  o ∈ distinct_from seen l ↔ o ∈ l ∧ o ∉ seen.
Proof.
  revert seen. induction l as [|x l IH]; intros seen; simpl.
  - split; [by intros ?%elem_of_nil|by intros [?%elem_of_nil _]].
  - case_decide as Hx.
    + rewrite IH, elem_of_cons. split; [tauto|].
      intros [[->|?] ?]; done.
    + rewrite !elem_of_cons, IH, elem_of_cons.
      split.
      * intros [->|[? ?]]; [by split; [left|]|tauto].
      * intros [Hor Hns]. destruct (decide (o = x)); [by left|]. right. tauto.
Qed.

Lemma NoDup_distinct_from seen l : NoDup (distinct_from seen l).
Proof.
  revert seen. induction l as [|x l IH]; intros seen; simpl.
  - constructor.
  - case_decide; [apply IH|].
    constructor; [|apply IH].
    rewrite elem_of_distinct_from, elem_of_cons. tauto.
Qed.

Lemma release_calls_distinct seen l s :
  (∀ o, o ∈ seen → quiet o s) →
  foldl (λ acc oid, releaseReservation oid acc) s l
  = foldl (λ acc oid, releaseReservation oid acc) s (distinct_from seen l).
Proof.
  revert seen s. induction l as [|o l IH]; intros seen s Hseen; simpl; [done|].
  case_decide as Ho.
  - rewrite quiet_release_id by auto. by apply IH.
  - simpl. apply IH. intros o' [->|Hin]%elem_of_cons.
    + apply quiet_after_release. by left.
    + apply quiet_after_release. right. auto.
Qed.

(** [find] returns the documents a plain filter of the collection keeps. *)
Lemma find_docs_from pred (f : nat → nat) (rs : list Reservation) :
  snd <$> filter (λ d : Doc, pred d.2 = true) (imap (λ i, pair (f i)) rs)
  = filter (λ r, pred r = true) rs.
Proof.
  revert f. induction rs as [|r rs IH]; intros f; [done|].
  rewrite imap_cons.
  destruct (pred r) eqn:Hp.
  - rewrite !filter_cons_True by done. rewrite fmap_cons. simpl. f_equal.
    apply (IH (f ∘ S)).
  - rewrite !filter_cons_False by (simpl; congruence).
    apply (IH (f ∘ S)).
Qed.

Lemma find_docs pred (rs : list Reservation) :
  snd <$> find pred rs = filter (λ r, pred r = true) rs.
Proof. apply (find_docs_from pred id). Qed.

Lemma expired_true now r :
  expired now r = true ↔ status r = Reserved ∧ expiresAt r < now.
Proof.
  unfold expired. rewrite andb_true_iff, !bool_decide_eq_true. done.
Qed.

(** ** Reserve: the two outcomes *)

Lemma total_reserve_touch p items :
  total t_dr p (reserve_touch <$> items) = requested_total p items.
Proof.
  unfold requested_total. induction items as [|it items IH]; [done|].
  rewrite fmap_cons, total_cons, IH. simpl.
  case_decide.
  - by rewrite filter_cons_True.
  - by rewrite filter_cons_False.
Qed.

Lemma on_product_reserve_touch p items :
  on_product p (reserve_touch <$> items) = []
  ↔ filter (λ it, item_productId it = p) items = [].
Proof.
  unfold on_product. induction items as [|it items IH]; [done|].
  rewrite fmap_cons. destruct (decide (item_productId it = p)).
  - rewrite !filter_cons_True by done. done.
  - rewrite !filter_cons_False by done. done.
Qed.

(** The inventory after an accepted request, product by product. *)
Lemma reserve_counters p items inv :
  let inv' := net p (reserve_touch <$> items) inv in
  quantity inv' = quantity inv
  ∧ reserved inv' = reserved inv + requested_total p items
  ∧ (filter (λ it, item_productId it = p) items ≠ [] →
     available inv' = quantity inv' - reserved inv')
  ∧ (filter (λ it, item_productId it = p) items = [] → inv' = inv).
Proof.
  intros inv'. unfold inv'.
  destruct (on_product p (reserve_touch <$> items)) as [|t l] eqn:E.
  - rewrite net_untouched by done.
    apply on_product_reserve_touch in E.
    unfold requested_total. rewrite E. simpl.
    repeat split; try done; lia.
  - assert (Hne : on_product p (reserve_touch <$> items) ≠ []) by (by rewrite E).
    rewrite net_total by done.
    rewrite total_reserve_touch, total_zero by done. simpl.
    repeat split; try lia.
    intros H. apply on_product_reserve_touch in H. done.
Qed.

(** In a request that names each product once, the reservations created
    hold exactly one document for each (order, product) pair. *)
Lemma created_once oid (lines : list Line) l :
  NoDup (item_productId <$> lines.*1) → l ∈ lines →
  filter (λ r, orderId r = oid ∧ productId r = item_productId l.1)
         (new_reservation_at oid <$> lines)
  = [new_reservation_at oid l].
Proof.
  induction lines as [|x lines IH]; intros Hnd Hin.
  - by apply elem_of_nil in Hin.
  - rewrite !fmap_cons in Hnd. apply NoDup_cons in Hnd as [Hx Hnd].
    rewrite fmap_cons.
    apply elem_of_cons in Hin as [->|Hin].
    + rewrite filter_cons_True by done. f_equal.
      apply filter_none. apply Forall_forall. intros r Hr [_ Hp].
      apply list_elem_of_fmap in Hr as (l' & -> & Hl'). simpl in Hp.
      apply Hx. rewrite <- Hp.
      apply list_elem_of_fmap_2. by apply list_elem_of_fmap_2.
    + rewrite filter_cons_False.
      * by apply IH.
      * simpl. intros [_ Hp]. apply Hx. rewrite Hp.
        apply list_elem_of_fmap_2. by apply list_elem_of_fmap_2.
Qed.

(** ** The claims on Reserve *)

(** C3, the statement of the specification refuted.  A request with two
    lines on the same product, each satisfiable, creates two reservations
    for the one (order, product) pair: the loop creates a reservation per
    line.  And for a request without an order id the accepted branch does
    not do what the claim says either: the first iteration saves the
    inventory document with its [reserved] raised, the reservation is
    rejected for its missing [orderId], and the call answers 500 with no
    reservation stored. *)
Lemma reserve_per_product_counterexample :
  ¬ one_reservation_per_product "O1" [mkItem "p1" 6; mkItem "p1" 6] 0 stocked
  ∧ reserve "" [mkItem "p1" 4] 0 stocked
    = {| response := Error500;
         ledger := {| inventory := {[ "p1" := mkInventory 10 4 6 ]};
                      reservations := [] |};
         published := [] |}.
Proof.
  split; [|reflexivity].
  intros H. destruct (H ltac:(by repeat constructor; exists (mkInventory 10 0 10))
                        "p1" ltac:(by left)) as [r Hr].
  vm_compute in Hr. discriminate Hr.
Qed.

(** C3 (amended). Reserve is all-or-nothing.  If some requested line is
    short (its product has no document, or its quantity exceeds the stored
    available quantity), the call changes neither collection, answers with
    the report of every short line (product, requested, available) and
    publishes the same report.  If every line is satisfiable, the request
    carries an order id and its numbers stay in the exact range, the call
    creates one reservation per requested line, in request order: for
    this order, this line's product and quantity, in status [reserved],
    created at the reading of the clock when it is built and expiring
    900000 ms (15 minutes) after the reading of the clock in its own
    iteration of the loop; it appends them to the collection and returns
    them.  When the request names each product once, that is exactly one
    reservation per (order, product).  Each product's [reserved] grows by
    the quantity requested of it over all lines, [quantity] is untouched,
    and [available] is recomputed. *)
Theorem reserve_all_or_nothing (oid : string) (lines : list Line) (s : Ledger) :
  let items := lines.*1 in
  (Exists (λ it, ¬ satisfiable (inventory s) it) items →
     ∃ short,
       reserve_at oid lines s
         = {| response := Rejected400 short; ledger := s;
              published := [EvInsufficient oid short] |}
       ∧ ∀ e, e ∈ short
              ↔ ∃ it, it ∈ items ∧ ¬ satisfiable (inventory s) it
                      ∧ e = mkInsufficient (item_productId it) (item_quantity it)
                              (available_of (inventory s) (item_productId it)))
  ∧ (oid ≠ "" → Forall (satisfiable (inventory s)) items →
     exact_reserve (inventory s) items →
     let created := reservations_created oid lines in
     let s' := ledger (reserve_at oid lines s) in
     response (reserve_at oid lines s) = Reserved200 (view_of <$> created)
     ∧ published (reserve_at oid lines s) = []
     ∧ reservations s' = reservations s ++ created
     ∧ length created = length lines
     ∧ (∀ i l, lines !! i = Some l →
          created !! i
          = Some (mkReservation oid (item_productId l.1) (item_quantity l.1) Reserved
                                (at_created l.2) (at_expiry l.2 + 900000)))
     ∧ (NoDup (item_productId <$> items) → ∀ r, r ∈ created →
          filter (λ r', orderId r' = oid ∧ productId r' = productId r) created = [r])
     ∧ (∀ p, inventory s !! p = None → inventory s' !! p = None)
     ∧ (∀ p inv, inventory s !! p = Some inv →
          ∃ inv', inventory s' !! p = Some inv'
                  ∧ quantity inv' = quantity inv
                  ∧ reserved inv' = reserved inv + requested_total p items
                  ∧ (filter (λ it, item_productId it = p) items ≠ [] →
                     available inv' = quantity inv' - reserved inv')
                  ∧ (filter (λ it, item_productId it = p) items = [] → inv' = inv))).
Proof.
  intros items. split.
  - intros Hex. apply Exists_not_Forall in Hex.
    exists (insufficientItems (inventory s) items). split.
    + by apply reserve_at_rejected.
    + intros e. apply elem_of_insufficientItems.
  - intros Hoid Hall _ created s'.
    destruct (reserve_at_accepted oid lines s Hoid Hall) as (s1 & Hres & Hi & Hr).
    unfold s', created, reservations_created. rewrite Hres. simpl.
    split; [done|]. split; [done|]. split; [done|].
    split; [by rewrite length_fmap|]. split.
    + intros i l Hl. apply list_lookup_fmap_Some. exists l. by split.
    + split.
      * intros Hnd r Hr'. apply list_elem_of_fmap in Hr' as (l & -> & Hl).
        by apply created_once.
      * split.
        -- intros p Hp. rewrite Hi. by apply foldl_touch_None.
        -- intros p inv Hp. rewrite Hi, foldl_touch_lookup, Hp. simpl.
           eexists. split; [done|]. apply reserve_counters.
Qed.

(** Scenario A then scenario B of the specification: four units of p1 are
    reserved out of ten, with the deadline 15 minutes after the reading of
    the clock in the loop; a later request for eight is rejected and
    leaves the ledger as it was. *)
Lemma reserve_all_or_nothing_witness :
  (∃ short,
     reserve_at "O2" [(mkItem "p1" 8, mkReadings 5 6)] held
       = {| response := Rejected400 short; ledger := held;
            published := [EvInsufficient "O2" short] |}
     ∧ mkInsufficient "p1" 8 7 ∈ short)
  ∧ response (reserve_at "O1" [(mkItem "p1" 4, mkReadings 1 2)] stocked)
    = Reserved200 [mkView "p1" 4 900001]
  ∧ reservations (ledger (reserve_at "O1" [(mkItem "p1" 4, mkReadings 1 2)] stocked))
    = [mkReservation "O1" "p1" 4 Reserved 2 900001].
Proof.
  split.
  - destruct (proj1 (reserve_all_or_nothing "O2" [(mkItem "p1" 8, mkReadings 5 6)]
                       held))
      as (short & Hres & Hshort).
    + apply Exists_cons_hd. intros (inv & Hl & Hle).
      vm_compute in Hl. injection Hl as <-. simpl in Hle. lia.
    + exists short. split; [exact Hres|].
      apply Hshort. exists (mkItem "p1" 8). split; [apply list_elem_of_here|].
      split; [|reflexivity].
      intros (inv & Hl & Hle).
      vm_compute in Hl. injection Hl as <-. simpl in Hle. lia.
  - destruct (proj2 (reserve_all_or_nothing "O1" [(mkItem "p1" 4, mkReadings 1 2)]
                       stocked))
      as (Hresp & _ & Hrs & _).
    + done.
    + apply Forall_cons. split; [|apply Forall_nil; exact I].
      exists (mkInventory 10 0 10). split; [reflexivity|simpl; lia].
    + split.
      * apply Forall_cons. split; [simpl; lia|apply Forall_nil; exact I].
      * intros p inv H. unfold stocked in H. simpl in H.
        apply lookup_singleton_Some in H as [<- <-].
        vm_compute. repeat split; discriminate.
    + split; [exact Hresp|exact Hrs].
Defined.

(** C10. A requested line whose product has no inventory document is an
    ordinary shortfall: the call answers 400 (not 500) with a report that
    lists the product with its requested quantity and available = 0, and
    the ledger is left as it was. *)
Theorem reserve_unknown_product (oid : string) (items : list Item) (now : Z)
    (s : Ledger) (it : Item) :
  it ∈ items →
  inventory s !! item_productId it = None →
  ∃ short,
    response (reserve oid items now s) = Rejected400 short
    ∧ mkInsufficient (item_productId it) (item_quantity it) 0 ∈ short
    ∧ ledger (reserve oid items now s) = s
    ∧ published (reserve oid items now s) = [EvInsufficient oid short].
Proof.
  intros Hin Hnone.
  assert (Hshort : ¬ satisfiable (inventory s) it).
  { intros (inv & Hl & _). congruence. }
  rewrite reserve_rejected.
  - eexists. split; [reflexivity|]. split; [|done].
    apply elem_of_insufficientItems. exists it. split; [done|]. split; [done|].
    unfold shortfall_of, available_of. by rewrite Hnone.
  - intros Hall. rewrite Forall_forall in Hall. by apply Hshort, Hall.
Qed.

Lemma reserve_unknown_product_witness :
  ∃ short,
    response (reserve "O1" [mkItem "p1" 1; mkItem "ghost" 2] 0 stocked) = Rejected400 short
    ∧ mkInsufficient "ghost" 2 0 ∈ short
    ∧ ledger (reserve "O1" [mkItem "p1" 1; mkItem "ghost" 2] 0 stocked) = stocked
    ∧ published (reserve "O1" [mkItem "p1" 1; mkItem "ghost" 2] 0 stocked)
      = [EvInsufficient "O1" short].
Proof.
  apply (reserve_unknown_product "O1" [mkItem "p1" 1; mkItem "ghost" 2] 0 stocked
           (mkItem "ghost" 2)).
  - apply list_elem_of_further, list_elem_of_here.
  - reflexivity.
Defined.

(** ** The claims on Confirm and Release *)

(** C4. Confirm and Release are idempotent: for every order id and every
    ledger, applying either twice leaves the same inventory and the same
    reservations as applying it once (so does a redelivered
    [payment.processed] event, whatever its status).  A reservation already
    [confirmed] or [released] is skipped by both, and a reservation that is
    [reserved] afterwards is one that was [reserved] before and was not
    written: no operation brings a reservation back to [reserved]. *)
Theorem confirm_release_idempotent (oid : string) (s : Ledger) :
  confirmReservation oid (confirmReservation oid s) = confirmReservation oid s
  ∧ releaseReservation oid (releaseReservation oid s) = releaseReservation oid s
  ∧ (∀ st, (handlePaymentProcessed oid st (handlePaymentProcessed oid st s).1).1
           = (handlePaymentProcessed oid st s).1)
  ∧ (∀ i r, reservations s !! i = Some r → status r ≠ Reserved →
        reservations (confirmReservation oid s) !! i = Some r
        ∧ reservations (releaseReservation oid s) !! i = Some r)
  ∧ (∀ i r, (reservations (confirmReservation oid s) !! i = Some r
             ∨ reservations (releaseReservation oid s) !! i = Some r) →
        status r = Reserved → reservations s !! i = Some r).
Proof.
  split; [apply confirmReservation_twice|].
  split; [apply releaseReservation_twice|].
  split.
  { intros st. unfold handlePaymentProcessed. case_bool_decide; simpl.
    - apply confirmReservation_twice.
    - apply releaseReservation_twice. }
  assert (Hsel : ∀ r, reserved_of oid r = true → status r = Reserved).
  { intros r H. by apply reserved_of_true in H as [_ ?]. }
  split.
  - intros i r Hl Hst.
    rewrite confirmReservation_reservations, releaseReservation_reservations.
    rewrite !list_lookup_fmap, Hl. simpl.
    by rewrite !settled_skip.
  - intros i r Hl Hst.
    rewrite confirmReservation_reservations, releaseReservation_reservations in Hl.
    rewrite !list_lookup_fmap in Hl.
    destruct (reservations s !! i) as [r0|]; simpl in Hl; [|by destruct Hl].
    destruct Hl as [[= Hl]|[= Hl]]; rewrite <- Hl; f_equal; symmetry;
      apply settled_still_reserved; try done; by rewrite Hl.
Qed.

Lemma confirm_release_idempotent_witness :
  reservations (confirmReservation "O1" held) !! 0%nat
    = Some (mkReservation "O1" "p1" 3 Confirmed 0 900000)
  ∧ reservations (releaseReservation "O1" (confirmReservation "O1" held)) !! 0%nat
    = Some (mkReservation "O1" "p1" 3 Confirmed 0 900000).
Proof.
  split; [reflexivity|].
  destruct (confirm_release_idempotent "O1" (confirmReservation "O1" held))
    as (_ & _ & _ & Hskip & _).
  apply (Hskip 0%nat (mkReservation "O1" "p1" 3 Confirmed 0 900000)).
  - reflexivity.
  - discriminate.
Defined.

(** C5 fails for an order that already holds reserved units of the product:
    order O1 holds 3 of p1 (reserved 3, available 7), reserves 2 more, and
    its release returns all 5 (reserved 0, available 10). *)
Lemma round_trip_counterexample : ¬ round_trip_restores "O1" "p1" 2 1 held.
Proof.
  intros H. destruct (H (mkInventory 10 3 7)) as (inv' & Hl & Hr & _).
  - reflexivity.
  - simpl. lia.
  - vm_compute in Hl. injection Hl as <-. simpl in Hr. lia.
Qed.

(** C5, amended.  In a ledger whose document of [p] is well formed (stored
    [available] is [quantity - reserved]) and holds at least [q] available
    units, for a request that carries an order id, of an order that holds
    no reserved units of [p] beforehand, and with the numbers of the round
    trip in the exact range: reserving [q] units of [p] raises [reserved]
    by [q] and lowers [available] by [q], and releasing the order then
    restores the document of [p] exactly; [quantity] is untouched by both
    steps. *)
Theorem reserve_release_round_trip (oid p : string) (q : Z) (rd : Readings)
    (s : Ledger) (inv : Inventory) :
  oid ≠ "" →
  inventory s !! p = Some inv →
  q ≤ available inv →
  available inv = quantity inv - reserved inv →
  ¬ holds_reserved oid p (reservations s) →
  exact_round_trip inv q →
  let s1 := ledger (reserve_at oid [(mkItem p q, rd)] s) in
  inventory s1 !! p
    = Some {| quantity := quantity inv;
              reserved := reserved inv + q;
              available := available inv - q |}
  ∧ inventory (releaseReservation oid s1) !! p = Some inv.
Proof.
  intros Hoid Hinv Hq Hwf Hno _ s1.
  assert (Hall : Forall (satisfiable (inventory s)) [(mkItem p q, rd)].*1).
  { apply Forall_cons. split; [|by apply Forall_nil]. exists inv. done. }
  split.
  - unfold s1.
    destruct (reserve_at_accepted oid [(mkItem p q, rd)] s Hoid Hall)
      as (s' & -> & Hi & _).
    simpl. rewrite Hi. simpl. unfold touch. simpl. rewrite Hinv.
    rewrite lookup_insert_eq. f_equal. apply inventory_eta; simpl; lia.
  - unfold s1. rewrite reserve_release_lookup; try done.
    intros inv0. rewrite Hinv. by intros [= <-].
Qed.

Lemma reserve_release_round_trip_witness :
  inventory (ledger (reserve_at "O3" [(mkItem "p1" 3, mkReadings 1 2)] stocked)) !! "p1"
    = Some (mkInventory 10 3 7)
  ∧ inventory (releaseReservation "O3"
                 (ledger (reserve_at "O3" [(mkItem "p1" 3, mkReadings 1 2)] stocked)))
      !! "p1"
    = Some (mkInventory 10 0 10).
Proof.
  apply (reserve_release_round_trip "O3" "p1" 3 (mkReadings 1 2) stocked
           (mkInventory 10 0 10)).
  - done.
  - reflexivity.
  - simpl. lia.
  - reflexivity.
  - intros (r & Hr & _). vm_compute in Hr. apply elem_of_nil in Hr. exact Hr.
  - vm_compute. repeat split; discriminate.
Defined.

(** ** The claim on the expiry sweep *)

(** C6 fails on both counts at time 200: the reservation of O2, whose
    deadline is exactly 200, is not selected (the query is [$lt]), and
    Release is called twice for O1 (once per expired reservation). *)
Lemma sweep_counterexample :
  sweep_calls 200 overdue = ["O1"; "O1"]
  ∧ ¬ sweep_selects_due 200 overdue
  ∧ ¬ sweep_once_per_order 200 overdue.
Proof.
  split; [reflexivity|]. split.
  - intros H. specialize (H "O2"). destruct H as [_ H].
    assert (Hin : "O2" ∈ sweep_calls 200 overdue).
    { apply H. exists (mkReservation "O2" "p1" 4 Reserved 100 200).
      split; [|by repeat split].
      unfold overdue; simpl. do 2 apply list_elem_of_further. apply list_elem_of_here. }
    vm_compute in Hin.
    apply elem_of_cons in Hin as [Hin|Hin]; [discriminate|].
    apply elem_of_cons in Hin as [Hin|Hin]; [discriminate|].
    by apply elem_of_nil in Hin.
  - unfold sweep_once_per_order. intros H.
    change (sweep_calls 200 overdue) with ["O1"; "O1"] in H.
    apply NoDup_cons in H as [H _]. apply H, list_elem_of_here.
Qed.

(** C6, amended.  The sweep selects exactly the reservations in status
    [reserved] whose deadline is strictly before [now], and calls Release
    once per selected reservation, in collection order, with that
    reservation's order id; there is no grouping.  A repeated call for an
    order finds nothing left to release, so the ledger ends as if Release
    had been called once per distinct affected order. *)
Theorem sweep_releases_per_expired_reservation (now : Z) (s : Ledger) :
  sweep_calls now s
    = orderId <$> filter (λ r, status r = Reserved ∧ expiresAt r < now) (reservations s)
  ∧ sweepExpired now s
    = foldl (λ acc oid, releaseReservation oid acc) s (sweep_calls now s)
  ∧ sweepExpired now s
    = foldl (λ acc oid, releaseReservation oid acc) s (distinct (sweep_calls now s))
  ∧ NoDup (distinct (sweep_calls now s))
  ∧ (∀ o, o ∈ distinct (sweep_calls now s) ↔ o ∈ sweep_calls now s).
Proof.
  split.
  { unfold sweep_calls.
    rewrite <- (list_filter_iff (λ r, expired now r = true)
                  (λ r, status r = Reserved ∧ expiresAt r < now))
      by (intros r; apply expired_true).
    by rewrite <- find_docs, <- list_fmap_compose. }
  split; [reflexivity|]. split.
  { unfold sweepExpired, distinct. apply release_calls_distinct.
    intros o Ho. by apply elem_of_nil in Ho. }
  split; [apply NoDup_distinct_from|].
  intros o. unfold distinct. rewrite elem_of_distinct_from.
  split; [tauto|]. intros H. split; [done|]. apply not_elem_of_nil.
Qed.

(** ** The accounting invariant *)

(** C1 at a request that names one product on two lines.  The stocked
    ledger (ten units of p1, none reserved) satisfies the invariant.  The
    request of order O1 for 6 and 6 units of p1 passes the check loop, which
    compares each line with the stored availability on its own, and the
    reserve loop then reserves 12 of the 10 units: [available] is -2 and
    the invariant is broken. *)
Theorem repeated_line_oversells :
  ledger_invariant stocked
  ∧ response (reserve "O1" [mkItem "p1" 6; mkItem "p1" 6] 0 stocked)
    = Reserved200 [mkView "p1" 6 900000; mkView "p1" 6 900000]
  ∧ inventory (ledger (reserve "O1" [mkItem "p1" 6; mkItem "p1" 6] 0 stocked)) !! "p1"
    = Some (mkInventory 10 12 (-2))
  ∧ ¬ ledger_invariant (ledger (reserve "O1" [mkItem "p1" 6; mkItem "p1" 6] 0 stocked)).
Proof.
  split.
  { intros p inv H. unfold stocked in H; simpl in H.
    apply lookup_singleton_Some in H as [_ <-].
    unfold item_invariant; simpl. lia. }
  split; [reflexivity|]. split; [reflexivity|].
  intros H. destruct (H "p1" (mkInventory 10 12 (-2))) as (_ & _ & Hav).
  - reflexivity.
  - simpl in Hav. lia.
Qed.

(** ** The accounting invariant on well-formed requests *)

Lemma sumZ_app l1 l2 : sumZ (l1 ++ l2) = sumZ l1 + sumZ l2.
Proof. unfold sumZ. induction l1 as [|x l1 IH]; simpl; lia. Qed.

Lemma sumZ_nonneg l : Forall (λ x, 0 ≤ x) l → 0 ≤ sumZ l.
Proof. unfold sumZ. induction 1; simpl; lia. Qed.

Lemma outstanding_nonneg p rs :
  (∀ r, r ∈ rs → status r = Reserved → 0 ≤ rquantity r) → 0 ≤ outstanding p rs.
Proof.
  intros H. apply sumZ_nonneg. apply Forall_forall. intros q Hq.
  apply list_elem_of_fmap in Hq as (r & -> & Hr).
  apply list_elem_of_filter in Hr as [[_ Hs] Hin]. by apply H.
Qed.

Lemma outstanding_cons p r rs :
  outstanding p (r :: rs)
  = (if decide (productId r = p ∧ status r = Reserved) then rquantity r else 0)
    + outstanding p rs.
Proof.
  unfold outstanding. case_decide.
  - by rewrite filter_cons_True.
  - by rewrite filter_cons_False.
Qed.

Lemma outstanding_app p rs1 rs2 :
  outstanding p (rs1 ++ rs2) = outstanding p rs1 + outstanding p rs2.
Proof. unfold outstanding. by rewrite filter_app, fmap_app, sumZ_app. Qed.

Lemma consistent_invariant s : consistent s → ledger_invariant s.
Proof.
  intros [Hi Hr] p inv Hp. destruct (Hi p inv Hp) as (Ha & Hn & Ho).
  split; [done|]. split; [|done].
  rewrite Ho. apply outstanding_nonneg. intros r Hin Hs. by apply Hr.
Qed.

Section settle_consistent.
Variables (dq dr : Z → Z) (st : ReservationStatus) (pred : Reservation → bool).
Hypothesis st_not_reserved : st ≠ Reserved.
Hypothesis dr_returns : ∀ q, dr q = - q.
Hypothesis gain_nonneg : ∀ q, 0 ≤ q → 0 ≤ dq q - dr q.
Hypothesis pred_reserved : ∀ r, pred r = true → status r = Reserved.

Lemma settle_touch_find (rs : list Reservation) :
  settle_touch dq dr <$> find pred rs
  = (λ r, mkTouch (productId r) (dq (rquantity r)) (dr (rquantity r)))
      <$> filter (λ r, pred r = true) rs.
Proof. by rewrite <- find_docs, <- list_fmap_compose. Qed.

Lemma total_dr_selected p (l : list Reservation) :
  total t_dr p
    ((λ r, mkTouch (productId r) (dq (rquantity r)) (dr (rquantity r))) <$> l)
  = - sumZ (rquantity <$> filter (λ r, productId r = p) l).
Proof.
  induction l as [|r l IH]; [done|].
  rewrite fmap_cons, total_cons, IH. simpl. case_decide.
  - rewrite filter_cons_True by done. rewrite fmap_cons. simpl.
    rewrite dr_returns. lia.
  - by rewrite filter_cons_False.
Qed.

Lemma total_gain p (l : list Reservation) :
  Forall (λ r, 0 ≤ rquantity r) l →
  0 ≤ total t_dq p
        ((λ r, mkTouch (productId r) (dq (rquantity r)) (dr (rquantity r))) <$> l)
      - total t_dr p
          ((λ r, mkTouch (productId r) (dq (rquantity r)) (dr (rquantity r))) <$> l).
Proof.
  induction 1 as [|r l Hr _ IH]; [done|].
  rewrite fmap_cons, !total_cons. simpl.
  pose proof (gain_nonneg _ Hr). case_decide; lia.
Qed.

Lemma on_product_selected p (l : list Reservation) :
  on_product p
    ((λ r, mkTouch (productId r) (dq (rquantity r)) (dr (rquantity r))) <$> l) = []
  ↔ filter (λ r, productId r = p) l = [].
Proof.
  unfold on_product. induction l as [|r l IH]; [done|].
  rewrite fmap_cons. destruct (decide (productId r = p)).
  - rewrite !filter_cons_True by done. done.
  - rewrite !filter_cons_False by done. done.
Qed.

Lemma outstanding_settled p (m : gmap string Inventory) (rs : list Reservation) :
  (∀ r, r ∈ rs → pred r = true → is_Some (m !! productId r)) →
  outstanding p (settled st pred m <$> rs)
  = outstanding p rs
    - sumZ (rquantity <$> filter (λ r, productId r = p) (filter (λ r, pred r = true) rs)).
Proof.
  induction rs as [|r rs IH]; intros Hm; [done|].
  rewrite fmap_cons, !outstanding_cons, IH
    by (intros r' Hin; apply Hm; by apply list_elem_of_further).
  destruct (pred r) eqn:Hp.
  - destruct (Hm r (list_elem_of_here _ _) Hp) as [inv Hinv].
    assert (Hset : settled st pred m r = set_status st r).
    { unfold settled. by rewrite Hp, Hinv. }
    rewrite Hset.
    rewrite (filter_cons_True (λ r, pred r = true)) by done.
    pose proof (pred_reserved r Hp) as Hs.
    rewrite (decide_False (P := _ ∧ status (set_status st r) = Reserved))
      by (simpl; intros [_ ?]; done).
    destruct (decide (productId r = p)) as [Heq|Hne].
    + rewrite decide_True by done.
      rewrite filter_cons_True by done. rewrite fmap_cons. simpl. lia.
    + rewrite decide_False by (intros [? _]; done).
      rewrite filter_cons_False by done. lia.
  - assert (Hset : settled st pred m r = r).
    { unfold settled. by rewrite Hp. }
    rewrite Hset.
    rewrite (filter_cons_False (λ r, pred r = true)) by congruence. lia.
Qed.

Lemma settle_consistent s :
  consistent s →
  consistent (foldl (settle_one dq dr st) s (find pred (reservations s))).
Proof.
  intros [Hi Hr].
  assert (Hsel : ∀ r, r ∈ reservations s → pred r = true →
                      is_Some (inventory s !! productId r)).
  { intros r Hin Hp. apply Hr; [done|]. by apply pred_reserved. }
  assert (Hq : Forall (λ r, 0 ≤ rquantity r) (filter (λ r, pred r = true) (reservations s))).
  { apply Forall_forall. intros r Hin.
    apply list_elem_of_filter in Hin as [Hp Hin]. apply Hr; [done|].
    by apply pred_reserved. }
  split.
  - intros p inv'. rewrite settle_inventory, settle_reservations.
    rewrite foldl_touch_lookup, settle_touch_find.
    destruct (inventory s !! p) as [inv|] eqn:Hp; simpl; [|done].
    intros [= <-]. destruct (Hi p inv Hp) as (Ha & Hn & Ho).
    rewrite outstanding_settled by done.
    set (l := filter (λ r, pred r = true) (reservations s)) in *.
    destruct (on_product p
                ((λ r, mkTouch (productId r) (dq (rquantity r)) (dr (rquantity r))) <$> l))
      as [|t ts] eqn:E.
    + rewrite net_untouched by done.
      apply on_product_selected in E. rewrite E. simpl.
      split; [done|]. split; [done|]. unfold sumZ; simpl. lia.
    + rewrite net_total by (by rewrite E).
      pose proof (total_gain p l Hq) as Hg.
      rewrite total_dr_selected in Hg |- *. simpl.
      split; [lia|]. split; lia.
  - intros r'. rewrite settle_reservations. intros Hin Hs.
    apply list_elem_of_fmap in Hin as (r & -> & Hin).
    rewrite settled_still_reserved in Hs |- * by done.
    destruct (Hr r Hin Hs) as [H0 Hsome]. split; [done|].
    rewrite settle_inventory. by apply foldl_touch_is_Some.
Qed.
End settle_consistent.

Lemma confirmReservation_consistent oid s :
  consistent s → consistent (confirmReservation oid s).
Proof.
  rewrite confirmReservation_settle. apply settle_consistent; try done.
  - intros q _. lia.
  - intros r H. by apply reserved_of_true in H as [_ ?].
Qed.

Lemma releaseReservation_consistent oid s :
  consistent s → consistent (releaseReservation oid s).
Proof.
  rewrite releaseReservation_settle. apply settle_consistent; try done.
  - intros q Hq. lia.
  - intros r H. by apply reserved_of_true in H as [_ ?].
Qed.

Lemma sweepExpired_consistent now s :
  consistent s → consistent (sweepExpired now s).
Proof.
  unfold sweepExpired. generalize (sweep_calls now s). intros calls.
  revert s. induction calls as [|o calls IH]; intros s Hs; simpl; [done|].
  apply IH. by apply releaseReservation_consistent.
Qed.

Lemma outstanding_new oid p (lines : list Line) :
  outstanding p (new_reservation_at oid <$> lines) = requested_total p lines.*1.
Proof.
  unfold requested_total. induction lines as [|l lines IH]; [done|].
  rewrite !fmap_cons, outstanding_cons, IH. simpl.
  destruct (decide (item_productId l.1 = p)).
  - rewrite decide_True by done. by rewrite filter_cons_True.
  - rewrite decide_False by (intros [? _]; done). by rewrite filter_cons_False.
Qed.

(** In a request that names each product once, at most one line asks for [p]. *)
Lemma lines_of_product p items :
  NoDup (item_productId <$> items) →
  filter (λ it, item_productId it = p) items = []
  ∨ ∃ it, it ∈ items ∧ filter (λ it, item_productId it = p) items = [it].
Proof.
  induction items as [|it items IH]; [by left|].
  rewrite fmap_cons. intros [Hnotin Hnd]%NoDup_cons.
  destruct (decide (item_productId it = p)) as [Heq|Hne].
  - right. exists it. split; [apply list_elem_of_here|].
    rewrite filter_cons_True by done. f_equal.
    apply filter_none. apply Forall_forall. intros it' Hin Hp.
    apply Hnotin. rewrite Heq, <- Hp. by apply list_elem_of_fmap_2.
  - rewrite filter_cons_False by done.
    destruct (IH Hnd) as [H|(it' & Hin & H)]; [by left|].
    right. exists it'. split; [by apply list_elem_of_further|done].
Qed.

Lemma reserve_at_consistent oid (lines : list Line) s :
  oid ≠ "" → consistent s → well_formed_request lines.*1 →
  consistent (ledger (reserve_at oid lines s)).
Proof.
  intros Hoid [Hi Hr] [Hnd Hpos].
  destruct (insufficientItems (inventory s) lines.*1) as [|e l] eqn:E.
  2:{ rewrite reserve_at_rejected; [done|].
      intros Hall. apply insufficientItems_nil in Hall. congruence. }
  apply insufficientItems_nil in E.
  destruct (reserve_at_accepted oid lines s Hoid E) as (s1 & -> & Hinv & Hres). simpl.
  split.
  - intros p inv'. rewrite Hinv, Hres, foldl_touch_lookup.
    destruct (inventory s !! p) as [inv|] eqn:Hp; simpl; [|done].
    intros [= <-]. destruct (Hi p inv Hp) as (Ha & Hn & Ho).
    destruct (reserve_counters p lines.*1 inv) as (Hq & Hrv & Htouched & Hsame).
    rewrite outstanding_app, outstanding_new.
    destruct (lines_of_product p lines.*1 Hnd) as [Hnone|(it & Hin & Hone)].
    + rewrite (Hsame Hnone). unfold requested_total. rewrite Hnone. simpl.
      split; [done|]. split; [done|]. unfold sumZ; simpl. lia.
    + assert (Htot : requested_total p lines.*1 = item_quantity it).
      { unfold requested_total. rewrite Hone. unfold sumZ; simpl. lia. }
      assert (Hpid : item_productId it = p).
      { assert (Hf : it ∈ filter (λ it, item_productId it = p) lines.*1).
        { rewrite Hone. apply list_elem_of_here. }
        by apply list_elem_of_filter in Hf as [? _]. }
      assert (Hle : item_quantity it ≤ available inv).
      { rewrite Forall_forall in E. destruct (E it Hin) as (inv0 & Hl & Hle).
        rewrite Hpid, Hp in Hl. by injection Hl as <-. }
      assert (Hne : filter (λ it, item_productId it = p) lines.*1 ≠ [])
        by (by rewrite Hone).
      specialize (Htouched Hne).
      split; [done|]. split; lia.
  - intros r Hin Hs. rewrite Hinv. rewrite Hres in Hin.
    apply elem_of_app in Hin as [Hin|Hin].
    + destruct (Hr r Hin Hs) as [H0 Hsome]. split; [done|].
      by apply foldl_touch_is_Some.
    + apply list_elem_of_fmap in Hin as (l & -> & Hin). simpl.
      assert (Hit : l.1 ∈ lines.*1) by (by apply list_elem_of_fmap_2).
      split.
      * rewrite Forall_forall in Hpos. by apply Hpos.
      * apply foldl_touch_is_Some. rewrite Forall_forall in E.
        by apply satisfiable_is_Some, E.
Qed.

Lemma reserve_consistent oid items now s :
  oid ≠ "" → consistent s → well_formed_request items →
  consistent (ledger (reserve oid items now s)).
Proof.
  intros Hoid Hs Hwf. unfold reserve.
  apply reserve_at_consistent; [done|done|]. by rewrite at_instant_items.
Qed.

Lemma step_consistent s op : consistent s → well_formed op → consistent (step s op).
Proof.
  destruct op as [oid items now|oid|oid|now]; simpl; intros Hs Hwf.
  - destruct Hwf. by apply reserve_consistent.
  - by apply confirmReservation_consistent.
  - by apply releaseReservation_consistent.
  - by apply sweepExpired_consistent.
Qed.

(** A freshly stocked ledger: no reservations, nothing reserved. *)
Lemma stocked_consistent (m : gmap string Inventory) :
  (∀ p inv, m !! p = Some inv →
     reserved inv = 0 ∧ available inv = quantity inv ∧ 0 ≤ quantity inv) →
  consistent {| inventory := m; reservations := [] |}.
Proof.
  intros H. split; simpl.
  - intros p inv Hp. destruct (H p inv Hp) as (Hr & Ha & Hq).
    unfold outstanding, sumZ; simpl. lia.
  - intros r Hin. by apply elem_of_nil in Hin.
Qed.

(** The invariant of C1 holds in every state reached from a consistent
    ledger by Reserve, Confirm, Release and SweepExpired, as long as every
    Reserve request carries an order id, names each product on one line
    only and asks for no negative quantity. *)
Lemma invariant_on_well_formed_requests (ops : list Op) (s : Ledger) :
  consistent s → Forall well_formed ops →
  consistent (foldl step s ops) ∧ ledger_invariant (foldl step s ops).
Proof.
  intros Hs Hwf.
  assert (H : consistent (foldl step s ops)).
  { revert s Hs. induction Hwf as [|op ops Hop _ IH]; intros s Hs; simpl; [done|].
    apply IH. by apply step_consistent. }
  split; [done|]. by apply consistent_invariant.
Qed.

(** ** The scenarios of the specification, run on the embedding *)

(** Scenario A: ten units of p1; order O1 reserves four, its payment
    succeeds, and the confirmation removes the four units from stock. *)
Example scenario_A :
  let s1 := ledger (reserve "O1" [mkItem "p1" 4] 0 stocked) in
  let s2 := (handlePaymentProcessed "O1" "success" s1).1 in
  inventory s1 !! "p1" = Some (mkInventory 10 4 6)
  ∧ reservations s1 = [mkReservation "O1" "p1" 4 Reserved 0 900000]
  ∧ inventory s2 !! "p1" = Some (mkInventory 6 0 6)
  ∧ reservations s2 = [mkReservation "O1" "p1" 4 Confirmed 0 900000].
Proof. repeat split; reflexivity. Qed.

(** Scenario C: order O3 reserves three units with deadline 900000; no
    payment event arrives.  The sweep at the deadline itself leaves the
    reservation alone; the sweep one millisecond later releases it. *)
Example scenario_C :
  let s1 := ledger (reserve "O3" [mkItem "p1" 3] 0 stocked) in
  sweepExpired 900000 s1 = s1
  ∧ inventory (sweepExpired 900001 s1) !! "p1" = Some (mkInventory 10 0 10)
  ∧ reservations (sweepExpired 900001 s1)
    = [mkReservation "O3" "p1" 3 Released 0 900000].
Proof. repeat split; reflexivity. Qed.

(** Scenario D: the payment of order O4 fails, and the release returns its
    reserved units to available stock. *)
Example scenario_D :
  let s1 := ledger (reserve "O4" [mkItem "p1" 5] 0 stocked) in
  let s2 := (handlePaymentProcessed "O4" "failed" s1).1 in
  inventory s1 !! "p1" = Some (mkInventory 10 5 5)
  ∧ inventory s2 !! "p1" = Some (mkInventory 10 0 10)
  ∧ reservations s2 = [mkReservation "O4" "p1" 5 Released 0 900000].
Proof. repeat split; reflexivity. Qed.

(** ** More on Confirm and Release *)

Lemma quiet_confirm_id oid s : quiet oid s → confirmReservation oid s = s.
Proof.
  intros H. rewrite confirmReservation_settle. apply settle_nothing.
  by apply Forall_forall.
Qed.

Lemma quiet_after_confirm oid oid' s :
  oid = oid' ∨ quiet oid s → quiet oid (confirmReservation oid' s).
Proof.
  intros Hq d Hd.
  apply elem_of_find in Hd as [Hl Hp].
  rewrite confirmReservation_reservations, list_lookup_fmap in Hl.
  destruct (reservations s !! d.1) as [r|] eqn:Hr; simpl in Hl; [|done].
  injection Hl as Hl.
  rewrite confirmReservation_inventory. apply foldl_touch_None.
  pose proof Hp as Hp'. apply reserved_of_true in Hp' as [Ho Hs].
  assert (Hsame : d.2 = r).
  { rewrite <- Hl. apply settled_still_reserved; [done|]. by rewrite Hl. }
  destruct Hq as [<-|Hq].
  - revert Hl. unfold settled. rewrite <- Hsame at 1. rewrite Hp.
    rewrite <- Hsame.
    destruct (inventory s !! productId d.2); [|done].
    intros Hl. rewrite <- Hl in Hs. done.
  - apply Hq. apply elem_of_find. by rewrite Hr, <- Hsame.
Qed.

Lemma nothing_reserved_quiet oid s : nothing_reserved oid (reservations s) → quiet oid s.
Proof.
  intros H d Hd. apply elem_of_find in Hd as [Hl Hp].
  apply reserved_of_true in Hp as [Ho Hs].
  exfalso. apply (H d.2); [|done|done].
  apply list_elem_of_lookup. eauto.
Qed.

(** X5. Confirm and Release exclude each other: once an order has been
    confirmed, releasing it changes nothing, and once it has been released,
    confirming it changes nothing (a payment event that arrives after the
    sweep released the order deducts no stock). *)
Theorem confirm_release_exclusive (oid : string) (s : Ledger) :
  releaseReservation oid (confirmReservation oid s) = confirmReservation oid s
  ∧ confirmReservation oid (releaseReservation oid s) = releaseReservation oid s.
Proof.
  split.
  - apply quiet_release_id, quiet_after_confirm. by left.
  - apply quiet_confirm_id, quiet_after_release. by left.
Qed.

(** X6. An order without a reservation in status [reserved] (unknown to the
    ledger, or already settled) is nothing to do: Confirm and Release leave
    the ledger exactly as it is, and the payment handler still publishes
    [inventory.updated] with status reserved on a success event. *)
Theorem settle_unknown_order (oid status_ : string) (s : Ledger) :
  nothing_reserved oid (reservations s) →
  confirmReservation oid s = s
  ∧ releaseReservation oid s = s
  ∧ handlePaymentProcessed oid status_ s
    = (s, if bool_decide (status_ = "success") then [EvReserved oid] else []).
Proof.
  intros H%nothing_reserved_quiet.
  pose proof (quiet_confirm_id oid s H) as Hc.
  pose proof (quiet_release_id oid s H) as Hr.
  split; [done|]. split; [done|].
  unfold handlePaymentProcessed. case_bool_decide; by rewrite ?Hc, ?Hr.
Qed.

Lemma settle_unknown_order_witness :
  handlePaymentProcessed "O9" "success" held = (held, [EvReserved "O9"]).
Proof.
  apply (settle_unknown_order "O9" "success" held).
  intros r Hr Ho. vm_compute in Hr.
  apply elem_of_cons in Hr as [->|Hr]; [discriminate Ho|].
  by apply elem_of_nil in Hr.
Defined.

(** ** More on the sweep *)

Lemma releaseReservation_is_Some oid s p :
  is_Some (inventory (releaseReservation oid s) !! p) ↔ is_Some (inventory s !! p).
Proof. rewrite releaseReservation_inventory. apply foldl_touch_is_Some. Qed.

Lemma swept_ext calls m m' r :
  (∀ p, is_Some (m !! p) ↔ is_Some (m' !! p)) → swept calls m r = swept calls m' r.
Proof.
  intros H. unfold swept. case_bool_decide; [|done].
  specialize (H (productId r)).
  destruct (m !! productId r), (m' !! productId r); try done.
  - destruct H as [H _]. destruct H as [? ?]; [eauto|done].
  - destruct H as [_ H]. destruct H as [? ?]; [eauto|done].
Qed.

Lemma swept_settled o rest m r :
  swept rest m (settled Released (reserved_of o) m r) = swept (o :: rest) m r.
Proof.
  unfold settled.
  destruct (reserved_of o r) eqn:Hp.
  - apply reserved_of_true in Hp as [Ho Hs].
    destruct (m !! productId r) as [inv|] eqn:Hm.
    + unfold swept. rewrite bool_decide_eq_false_2 by (by intros [? _]).
      rewrite bool_decide_eq_true_2, Hm; [done|].
      split; [done|]. rewrite Ho. apply list_elem_of_here.
    + unfold swept. rewrite Hm. by repeat case_bool_decide.
  - unfold swept.
    assert (Hiff : status r = Reserved ∧ orderId r ∈ rest
                   ↔ status r = Reserved ∧ orderId r ∈ o :: rest).
    { rewrite elem_of_cons. split; [tauto|]. intros [Hs [Ho|Hin]]; [|done].
      exfalso. assert (reserved_of o r = true) by (by apply reserved_of_true).
      congruence. }
    repeat case_bool_decide; tauto.
Qed.

Lemma release_calls_reservations calls s :
  reservations (release_calls s calls) = swept calls (inventory s) <$> reservations s.
Proof.
  unfold release_calls.
  revert s. induction calls as [|o calls IH]; intros s; simpl.
  - rewrite <- (list_fmap_id (reservations s)) at 1.
    apply list_fmap_ext. intros i r _. unfold swept.
    rewrite bool_decide_eq_false_2; [done|]. intros [_ H]. by apply elem_of_nil in H.
  - rewrite IH, releaseReservation_reservations, <- list_fmap_compose.
    apply list_fmap_ext. intros i r _. simpl.
    rewrite <- swept_settled. apply swept_ext.
    intros p. apply releaseReservation_is_Some.
Qed.

Lemma release_calls_is_Some calls s p :
  is_Some (inventory (release_calls s calls) !! p) ↔ is_Some (inventory s !! p).
Proof.
  unfold release_calls.
  revert s. induction calls as [|o calls IH]; intros s; simpl; [done|].
  rewrite IH. apply releaseReservation_is_Some.
Qed.

Lemma release_calls_quiet calls s o :
  o ∈ calls → quiet o (release_calls s calls).
Proof.
  unfold release_calls.
  revert s. induction calls as [|o' calls IH]; intros s Hin; simpl.
  - by apply elem_of_nil in Hin.
  - destruct (decide (o ∈ calls)) as [Hc|Hc]; [by apply IH|].
    apply elem_of_cons in Hin as [->|?]; [|done].
    assert (Hq : quiet o' (releaseReservation o' s)).
    { apply quiet_after_release. by left. }
    clear -Hq. revert Hq. generalize (releaseReservation o' s). clear s.
    induction calls as [|o'' calls IH]; intros s Hq; simpl; [done|].
    apply IH. apply quiet_after_release. by right.
Qed.

Lemma release_calls_all_quiet calls s :
  (∀ o, o ∈ calls → quiet o s) → release_calls s calls = s.
Proof.
  unfold release_calls.
  induction calls as [|o calls IH]; intros H; simpl; [done|].
  rewrite quiet_release_id by (apply H, list_elem_of_here).
  apply IH. intros o' Ho'. apply H. by apply list_elem_of_further.
Qed.

Lemma elem_of_sweep_calls now s o :
  o ∈ sweep_calls now s
  ↔ ∃ r, r ∈ reservations s ∧ status r = Reserved ∧ expiresAt r < now ∧ orderId r = o.
Proof.
  unfold sweep_calls. rewrite list_elem_of_fmap. split.
  - intros (d & -> & Hd). apply elem_of_find in Hd as [Hl He].
    apply expired_true in He as [Hs He].
    exists d.2. split; [|done]. apply list_elem_of_lookup. eauto.
  - intros (r & Hin & Hs & He & <-).
    apply list_elem_of_lookup in Hin as [i Hi].
    exists (i, r). split; [done|]. apply elem_of_find. split; [done|].
    by apply expired_true.
Qed.

(** X9. The sweep works by order, not by reservation: it releases every
    reservation in status [reserved] of every order that has at least one
    reservation past its deadline, whether or not that reservation's own
    deadline has passed, provided its product has a document; every other
    reservation is left exactly as it is. *)
Theorem sweep_releases_whole_orders (now : Z) (s : Ledger) (i : nat) (r : Reservation) :
  reservations s !! i = Some r →
  reservations (sweepExpired now s) !! i
  = Some (if bool_decide
               (status r = Reserved
                ∧ Exists (λ r', status r' = Reserved ∧ expiresAt r' < now
                                ∧ orderId r' = orderId r) (reservations s))
          then match inventory s !! productId r with
               | Some _ => set_status Released r
               | None => r
               end
          else r).
Proof.
  intros Hr.
  change (sweepExpired now s) with (release_calls s (sweep_calls now s)).
  rewrite release_calls_reservations, list_lookup_fmap, Hr. simpl. f_equal.
  unfold swept.
  assert (Hiff : status r = Reserved ∧ orderId r ∈ sweep_calls now s
                 ↔ status r = Reserved
                   ∧ Exists (λ r', status r' = Reserved ∧ expiresAt r' < now
                                   ∧ orderId r' = orderId r) (reservations s)).
  { by rewrite elem_of_sweep_calls, Exists_exists. }
  repeat case_bool_decide; tauto.
Qed.

Lemma sweep_releases_whole_orders_witness :
  reservations (sweepExpired 200 mixed_deadlines) !! 1%nat
  = Some (mkReservation "O1" "p2" 1 Released 0 500).
Proof.
  apply (sweep_releases_whole_orders 200 mixed_deadlines 1
           (mkReservation "O1" "p2" 1 Reserved 0 500)).
  reflexivity.
Defined.

(** X8. A sweep leaves nothing for a second sweep at the same time: running
    the sweep twice gives the ledger that running it once gives. *)
Theorem sweep_idempotent (now : Z) (s : Ledger) :
  sweepExpired now (sweepExpired now s) = sweepExpired now s.
Proof.
  change (sweepExpired now (sweepExpired now s))
    with (release_calls (sweepExpired now s) (sweep_calls now (sweepExpired now s))).
  apply release_calls_all_quiet. intros o Ho.
  change (sweepExpired now s) with (release_calls s (sweep_calls now s)) in *.
  apply release_calls_quiet.
  apply elem_of_sweep_calls in Ho as (r' & Hin & Hs & He & <-).
  rewrite release_calls_reservations in Hin.
  apply list_elem_of_fmap in Hin as (r & -> & Hin).
  assert (Hsame : swept (sweep_calls now s) (inventory s) r = r).
  { revert Hs. unfold swept. case_bool_decide; [|done].
    by destruct (inventory s !! productId r). }
  rewrite Hsame in *.
  apply elem_of_sweep_calls. eauto.
Qed.

(** X11. An accepted request is held until the first of its deadlines.
    Each line's reservation carries its own deadline, 900000 ms after the
    reading of the clock in its iteration of the loop.  In a ledger with
    nothing overdue at time [t], a sweep at a time [t] that no line's
    deadline precedes changes nothing; once the deadline of one line has
    passed, the sweep releases every reservation the request created,
    those of the later lines before their own deadline. *)
Theorem reservation_held_until_deadline (oid : string) (lines : list Line)
    (t : Z) (s : Ledger) :
  oid ≠ "" →
  Forall (satisfiable (inventory s)) lines.*1 →
  sweep_calls t s = [] →
  let s1 := ledger (reserve_at oid lines s) in
  (Forall (λ l : Line, t ≤ at_expiry l.2 + 900000) lines → sweepExpired t s1 = s1)
  ∧ (Exists (λ l : Line, at_expiry l.2 + 900000 < t) lines →
     ∀ l, l ∈ lines →
       set_status Released (new_reservation_at oid l) ∈ reservations (sweepExpired t s1)).
Proof.
  intros Hoid Hall Hnone s1.
  destruct (reserve_at_accepted oid lines s Hoid Hall) as (s' & Hres & Hi & Hr).
  unfold s1. rewrite Hres. simpl. split.
  - intros Ht.
    assert (Hcalls : sweep_calls t s' = []).
    { unfold sweep_calls in *. rewrite Hr, find_app, fmap_app, Hnone. simpl.
      rewrite filter_none; [done|].
      apply Forall_forall. intros d Hd He.
      apply elem_of_lookup_imap in Hd as (j & r & -> & Hl).
      apply list_lookup_fmap_Some in Hl as (l & ? & Hl). subst r.
      apply expired_true in He as [_ He]. simpl in He. unfold horizon in He.
      rewrite Forall_forall in Ht.
      assert (Hin : l ∈ lines) by (apply list_elem_of_lookup; eauto).
      specialize (Ht l Hin). simpl in Ht. lia. }
    unfold sweepExpired. by rewrite Hcalls.
  - intros Ht l Hl.
    change (sweepExpired t s') with (release_calls s' (sweep_calls t s')).
    rewrite release_calls_reservations.
    assert (Hin : new_reservation_at oid l ∈ reservations s').
    { rewrite Hr. apply elem_of_app. right. by apply list_elem_of_fmap_2. }
    assert (Hsw : swept (sweep_calls t s') (inventory s') (new_reservation_at oid l)
                  = set_status Released (new_reservation_at oid l)).
    { unfold swept. rewrite bool_decide_eq_true_2.
      - rewrite Forall_forall in Hall.
        assert (Hit : l.1 ∈ lines.*1) by (by apply list_elem_of_fmap_2).
        destruct (satisfiable_is_Some _ _ (Hall _ Hit)) as [inv Hinv].
        assert (Hs : is_Some (inventory s' !! item_productId l.1)).
        { rewrite Hi. apply foldl_touch_is_Some. eauto. }
        destruct Hs as [inv' Hinv']. simpl. by rewrite Hinv'.
      - split; [done|]. apply elem_of_sweep_calls.
        apply Exists_exists in Ht as (l0 & Hl0 & Hlate).
        exists (new_reservation_at oid l0). simpl. unfold horizon.
        split; [|split; [done|split; [lia|done]]].
        rewrite Hr. apply elem_of_app. right. by apply list_elem_of_fmap_2. }
    rewrite <- Hsw. by apply list_elem_of_fmap_2.
Qed.

(** Two lines booked half a second apart: one millisecond after the
    deadline of the first, the sweep releases the second as well. *)
Lemma reservation_held_until_deadline_witness :
  mkReservation "O3" "p2" 1 Released 501 900500
  ∈ reservations
      (sweepExpired 900001
         (ledger (reserve_at "O3" [(mkItem "p1" 3, mkReadings 0 1);
                                   (mkItem "p2" 1, mkReadings 500 501)]
                             two_products))).
Proof.
  destruct (reservation_held_until_deadline "O3"
              [(mkItem "p1" 3, mkReadings 0 1); (mkItem "p2" 1, mkReadings 500 501)]
              900001 two_products) as [_ H].
  - done.
  - apply Forall_cons. split.
    + exists (mkInventory 10 0 10). split; [reflexivity|simpl; lia].
    + apply Forall_cons. split; [|apply Forall_nil; exact I].
      exists (mkInventory 5 0 5). split; [reflexivity|simpl; lia].
  - reflexivity.
  - apply (H ltac:(apply Exists_cons_hd; simpl; lia)
             (mkItem "p2" 1, mkReadings 500 501)).
    apply list_elem_of_further, list_elem_of_here.
Defined.

(** ** Stocking *)

Lemma outstanding_no_document p s :
  consistent s → inventory s !! p = None → outstanding p (reservations s) = 0.
Proof.
  intros [_ Hr] Hnone. unfold outstanding.
  rewrite filter_none; [done|].
  apply Forall_forall. intros r Hin [Hp Hs].
  destruct (Hr r Hin Hs) as [_ [inv Hinv]]. congruence.
Qed.

Lemma createInventory_consistent pid q s :
  0 ≤ q → consistent s → consistent (createInventory pid q s).2.
Proof.
  intros Hq Hs. unfold createInventory.
  destruct (inventory s !! pid) as [inv0|] eqn:Hpid; [done|]. simpl.
  pose proof (outstanding_no_document pid s Hs Hpid) as Hout.
  destruct Hs as [Hi Hr]. split; simpl.
  - intros p inv. destruct (decide (pid = p)) as [<-|Hne].
    + rewrite lookup_insert_eq. intros [= <-]. simpl. rewrite Hout. lia.
    + rewrite lookup_insert_ne by done. apply Hi.
  - intros r Hin Hst. destruct (Hr r Hin Hst) as [H0 Hsome]. split; [done|].
    destruct (decide (pid = productId r)) as [<-|Hne].
    + rewrite lookup_insert_eq. eauto.
    + by rewrite lookup_insert_ne.
Qed.



(** ** What each call does to the stock on hand *)

Lemma net_quantity {A} (g : A → Touch) p (l : list A) inv :
  (∀ a, t_dq (g a) = 0) → quantity (net p (g <$> l) inv) = quantity inv.
Proof.
  intros Hg. destruct (on_product p (g <$> l)) as [|t ts] eqn:E.
  - by rewrite net_untouched.
  - rewrite net_total by (by rewrite E). rewrite total_zero by done. simpl. lia.
Qed.

Lemma releaseReservation_quantity oid s p :
  quantity <$> inventory (releaseReservation oid s) !! p = quantity <$> inventory s !! p.
Proof.
  rewrite releaseReservation_inventory, foldl_touch_lookup.
  destruct (inventory s !! p) as [inv|]; simpl; [|done].
  f_equal. by apply net_quantity.
Qed.

Lemma sweepExpired_quantity now s p :
  quantity <$> inventory (sweepExpired now s) !! p = quantity <$> inventory s !! p.
Proof.
  unfold sweepExpired. generalize (sweep_calls now s). intros calls.
  revert s. induction calls as [|o calls IH]; intros s; simpl; [done|].
  by rewrite IH, releaseReservation_quantity.
Qed.

(** Whatever its outcome, Reserve has run some iterations of its loop on
    the inventory and appended some reservations. *)
Lemma reserve_at_ledger oid (lines : list Line) s :
  ∃ (touched : list Item) (new : list Reservation),
    inventory (ledger (reserve_at oid lines s))
    = foldl touch (inventory s) (reserve_touch <$> touched)
    ∧ reservations (ledger (reserve_at oid lines s)) = reservations s ++ new.
Proof.
  destruct (insufficientItems (inventory s) lines.*1) as [|e l] eqn:E.
  - apply insufficientItems_nil in E.
    destruct (decide (oid = "")) as [->|Hoid].
    + destruct lines as [|l lines].
      * exists [], []. by rewrite app_nil_r.
      * rewrite reserve_at_unnamed by done. exists [l.1], []. simpl.
        by rewrite app_nil_r.
    + destruct (reserve_at_accepted oid lines s Hoid E) as (s1 & -> & Hi & Hr).
      simpl. eauto.
  - rewrite reserve_at_rejected.
    + exists [], []. simpl. by rewrite app_nil_r.
    + intros Hall. apply insufficientItems_nil in Hall. congruence.
Qed.

Lemma reserve_ledger oid items now s :
  ∃ (touched : list Item) (new : list Reservation),
    inventory (ledger (reserve oid items now s))
    = foldl touch (inventory s) (reserve_touch <$> touched)
    ∧ reservations (ledger (reserve oid items now s)) = reservations s ++ new.
Proof. apply reserve_at_ledger. Qed.

Lemma reserve_at_quantity oid (lines : list Line) s p :
  quantity <$> inventory (ledger (reserve_at oid lines s)) !! p
  = quantity <$> inventory s !! p.
Proof.
  destruct (reserve_at_ledger oid lines s) as (touched & new & -> & _).
  rewrite foldl_touch_lookup.
  destruct (inventory s !! p) as [inv|]; simpl; [|done].
  f_equal. by apply net_quantity.
Qed.

Lemma total_nonpos {A} (g : A → Touch) (f : Touch → Z) p (l : list A) :
  Forall (λ a, f (g a) ≤ 0) l → total f p (g <$> l) ≤ 0.
Proof.
  induction 1 as [|a l Ha _ IH]; [done|].
  rewrite fmap_cons, total_cons. case_decide; lia.
Qed.

(** Confirm takes stock away: in a consistent ledger no reservation holds a
    negative quantity. *)
Lemma confirmReservation_quantity oid s p inv' :
  consistent s →
  inventory (confirmReservation oid s) !! p = Some inv' →
  ∃ inv, inventory s !! p = Some inv ∧ quantity inv' ≤ quantity inv.
Proof.
  intros [_ Hr]. rewrite confirmReservation_inventory, foldl_touch_lookup.
  destruct (inventory s !! p) as [inv|]; simpl; [|done].
  intros [= <-]. exists inv. split; [done|].
  set (ts := confirm_touch <$> find (reserved_of oid) (reservations s)).
  destruct (on_product p ts) as [|t l] eqn:E.
  - by rewrite net_untouched.
  - rewrite net_total by (by rewrite E). simpl.
    assert (total t_dq p ts ≤ 0); [|lia].
    apply total_nonpos. apply Forall_forall. intros d Hd. simpl.
    apply elem_of_find in Hd as [Hl Hpred].
    apply reserved_of_true in Hpred as [_ Hst].
    assert (Hin : d.2 ∈ reservations s) by (apply list_elem_of_lookup; eauto).
    destruct (Hr _ Hin Hst) as [H0 _]. lia.
Qed.

Lemma capped_same_quantity s s' :
  (∀ p, quantity <$> inventory s' !! p = quantity <$> inventory s !! p) →
  capped s → capped s'.
Proof.
  intros Hq Hs p inv' Hp. specialize (Hq p). rewrite Hp in Hq. simpl in Hq.
  destruct (inventory s !! p) as [inv|] eqn:E; [|done].
  injection Hq as ->. by apply (Hs p).
Qed.

Lemma api_step_consistent s c :
  consistent s → api_well_formed c → consistent (api_step s c).
Proof.
  destruct c as [pid q|oid lines|oid|oid|now]; simpl; intros Hs Hwf.
  - destruct Hwf as [_ Hq]. apply createInventory_consistent; [lia|done].
  - destruct Hwf as (Hoid & Hnd & Hq). apply reserve_at_consistent; [done|done|].
    split; [done|]. eapply Forall_impl; [exact Hq|]. intros it H; simpl in H. lia.
  - by apply confirmReservation_consistent.
  - by apply releaseReservation_consistent.
  - by apply sweepExpired_consistent.
Qed.

Lemma api_step_capped s c :
  consistent s → capped s → api_well_formed c → capped (api_step s c).
Proof.
  destruct c as [pid q|oid lines|oid|oid|now]; simpl; intros Hc Hs Hwf.
  - unfold createInventory.
    destruct (inventory s !! pid) as [inv0|] eqn:Hpid; [done|]. simpl.
    intros p inv. simpl. destruct (decide (pid = p)) as [<-|Hne].
    + rewrite lookup_insert_eq. intros [= <-]. simpl. destruct Hwf. lia.
    + rewrite lookup_insert_ne by done. apply Hs.
  - eapply capped_same_quantity; [|exact Hs]. intros p. apply reserve_at_quantity.
  - intros p inv' Hp.
    destruct (confirmReservation_quantity oid s p inv' Hc Hp) as (inv & Hinv & Hle).
    specialize (Hs p inv Hinv). lia.
  - eapply capped_same_quantity; [|exact Hs].
    intros p. apply releaseReservation_quantity.
  - eapply capped_same_quantity; [|exact Hs].
    intros p. apply sweepExpired_quantity.
Qed.

(** X1. The accounting invariant holds in every ledger the API can build
    from nothing, as long as stocked and requested quantities are integers
    from 0 to 2^53 and every Reserve request carries an order id and names
    each product on one line only: throughout any run of stocking, Reserve,
    Confirm, Release and sweep calls, every document has
    [available = quantity - reserved], [reserved >= 0], [available >= 0]
    and [quantity <= 2^53].  So every counter stays an integer from 0 to
    2^53, the range in which the arithmetic of the code is exact. *)
Theorem invariant_of_api_runs (calls : list ApiCall) :
  Forall api_well_formed calls →
  ledger_invariant (foldl api_step empty_ledger calls)
  ∧ capped (foldl api_step empty_ledger calls).
Proof.
  intros Hwf.
  assert (H0 : consistent empty_ledger ∧ capped empty_ledger).
  { split.
    - apply stocked_consistent. intros p inv H. by rewrite lookup_empty in H.
    - intros p inv H. simpl in H. by rewrite lookup_empty in H. }
  assert (H : consistent (foldl api_step empty_ledger calls)
              ∧ capped (foldl api_step empty_ledger calls)).
  { revert H0. generalize empty_ledger.
    induction Hwf as [|c calls Hc _ IH]; intros s [Hs Hcap]; simpl; [done|].
    apply IH. split.
    - by apply api_step_consistent.
    - by apply api_step_capped. }
  destruct H as [H Hcap]. split; [|done]. by apply consistent_invariant.
Qed.

Lemma invariant_of_api_runs_witness :
  ledger_invariant
    (foldl api_step empty_ledger
       [Stock "p1" 10;
        ReserveLines "O1" [(mkItem "p1" 4, mkReadings 0 1)];
        ConfirmOrder "O1";
        ReserveLines "O2" [(mkItem "p1" 8, mkReadings 2 3)];
        Sweep 5])
  ∧ capped
      (foldl api_step empty_ledger
         [Stock "p1" 10;
          ReserveLines "O1" [(mkItem "p1" 4, mkReadings 0 1)];
          ConfirmOrder "O1";
          ReserveLines "O2" [(mkItem "p1" 8, mkReadings 2 3)];
          Sweep 5]).
Proof.
  apply invariant_of_api_runs.
  repeat (apply Forall_cons; split); try apply Forall_nil; simpl; try exact I.
  - split; [done|lia].
  - split; [done|]. split.
    + apply NoDup_singleton.
    + apply Forall_cons. split; [simpl; lia|apply Forall_nil; exact I].
  - split; [done|]. split.
    + apply NoDup_singleton.
    + apply Forall_cons. split; [simpl; lia|apply Forall_nil; exact I].
Defined.

(** ** Reserve followed by Release or Confirm, for whole requests *)

Lemma nothing_reserved_holds oid p rs :
  nothing_reserved oid rs → ¬ holds_reserved oid p rs.
Proof. intros H (r & Hin & Ho & _ & Hs). by apply (H r). Qed.

Lemma total_find_none (g : Doc → Touch) f oid p rs :
  (∀ d, t_product (g d) = productId d.2) →
  ¬ holds_reserved oid p rs →
  total f p (g <$> find (reserved_of oid) rs) = 0.
Proof.
  intros Hg Hno. unfold total, on_product.
  rewrite filter_none; [done|].
  apply Forall_forall. intros t Ht Hp.
  apply list_elem_of_fmap in Ht as (d & -> & Hd).
  apply elem_of_find in Hd as [Hl Hpred].
  apply reserved_of_true in Hpred as [Ho Hs].
  apply Hno. exists d.2. rewrite Hg in Hp. split; [|done].
  apply list_elem_of_lookup. eauto.
Qed.

Lemma total_confirm_new f p (lines : list Line) :
  (∀ l : Line,
     f (mkTouch (item_productId l.1) (- item_quantity l.1) (- item_quantity l.1))
     = - item_quantity l.1) →
  total f p ((λ l : Line,
                mkTouch (item_productId l.1) (- item_quantity l.1) (- item_quantity l.1))
               <$> lines)
  = - requested_total p lines.*1.
Proof.
  intros Hf. unfold requested_total. induction lines as [|l lines IH]; [done|].
  rewrite !fmap_cons, total_cons, IH, Hf. simpl. case_decide.
  - rewrite filter_cons_True by done. rewrite fmap_cons. simpl. lia.
  - by rewrite filter_cons_False.
Qed.

Lemma settled_new_reservations st oid m (lines : list Line) :
  Forall (λ l : Line, is_Some (m !! item_productId l.1)) lines →
  settled st (reserved_of oid) m <$> (new_reservation_at oid <$> lines)
  = set_status st <$> (new_reservation_at oid <$> lines).
Proof.
  intros Hall. apply list_fmap_ext. intros i r Hr.
  apply list_lookup_fmap_Some in Hr as (l & ? & Hl). subst r.
  rewrite Forall_forall in Hall.
  destruct (Hall l) as [inv Hinv]; [apply list_elem_of_lookup; eauto|].
  unfold settled.
  assert (Hp : reserved_of oid (new_reservation_at oid l) = true)
    by (by apply reserved_of_true).
  rewrite Hp. simpl. by rewrite Hinv.
Qed.

Lemma settled_nothing_reserved st oid m rs :
  nothing_reserved oid rs → settled st (reserved_of oid) m <$> rs = rs.
Proof.
  intros H. rewrite <- (list_fmap_id rs) at 2.
  apply list_fmap_ext. intros i r Hr. unfold settled.
  destruct (reserved_of oid r) eqn:Hp; [|done].
  apply reserved_of_true in Hp as [Ho Hs].
  exfalso. apply (H r); [|done|done]. apply list_elem_of_lookup. eauto.
Qed.

(** X3. Reserve then Release is a round trip for a whole request: for a
    request that carries an order id, of an order that holds nothing
    reserved beforehand, in a ledger of well-formed documents and with the
    numbers of the request in the exact range, releasing the order after
    the accepted request of any number of lines gives back the inventory
    collection exactly as it was, and leaves every reservation the request
    created in status [released]. *)
Theorem reserve_release_restores_inventory (oid : string) (lines : list Line)
    (s : Ledger) :
  oid ≠ "" →
  Forall (satisfiable (inventory s)) lines.*1 →
  nothing_reserved oid (reservations s) →
  documents_well_formed (inventory s) →
  exact_reserve (inventory s) lines.*1 →
  let s2 := releaseReservation oid (ledger (reserve_at oid lines s)) in
  inventory s2 = inventory s
  ∧ reservations s2
    = reservations s ++ (set_status Released <$> reservations_created oid lines).
Proof.
  intros Hoid Hall Hno Hwf _ s2. unfold s2. split.
  - apply map_eq. intros p. apply reserve_release_lookup; try done.
    + by apply nothing_reserved_holds.
    + apply Hwf.
  - destruct (reserve_at_accepted oid lines s Hoid Hall) as (s1 & -> & Hi & Hr). simpl.
    rewrite releaseReservation_reservations, Hr, fmap_app.
    rewrite settled_nothing_reserved by done. f_equal.
    apply settled_new_reservations.
    rewrite Forall_fmap in Hall.
    eapply Forall_impl; [exact Hall|]. intros l Hl. cbv beta.
    rewrite Hi. apply foldl_touch_is_Some. by apply satisfiable_is_Some.
Qed.

Lemma reserve_release_restores_inventory_witness :
  inventory (releaseReservation "O3"
               (ledger (reserve_at "O3" [(mkItem "p1" 3, mkReadings 0 1);
                                         (mkItem "p2" 2, mkReadings 4 5)]
                                   two_products)))
  = inventory two_products.
Proof.
  apply (reserve_release_restores_inventory "O3"
           [(mkItem "p1" 3, mkReadings 0 1); (mkItem "p2" 2, mkReadings 4 5)]
           two_products).
  - done.
  - apply Forall_cons. split.
    + exists (mkInventory 10 0 10). split; [reflexivity|simpl; lia].
    + apply Forall_cons. split; [|apply Forall_nil; exact I].
      exists (mkInventory 5 0 5). split; [reflexivity|simpl; lia].
  - intros r Hr. vm_compute in Hr. by apply elem_of_nil in Hr.
  - intros p inv H. unfold two_products in H; simpl in H.
    apply lookup_insert_Some in H as [[_ <-]|[_ H]]; [reflexivity|].
    apply lookup_singleton_Some in H as [_ <-]. reflexivity.
  - split.
    + repeat (apply Forall_cons; split); try (apply Forall_nil; exact I); simpl; lia.
    + intros p inv H. unfold two_products in H; simpl in H.
      apply lookup_insert_Some in H as [[<- <-]|[_ H]].
      * vm_compute. repeat split; discriminate.
      * apply lookup_singleton_Some in H as [<- <-].
        vm_compute. repeat split; discriminate.
Defined.

(** X4. Reserve then Confirm removes exactly the requested units from stock:
    for a request that carries an order id, of an order that holds nothing
    reserved on [p] beforehand, a well-formed document of [p] and numbers
    in the exact range, confirming the order after the accepted request
    lowers [quantity] and [available] of [p] by the units the request asked
    of [p] and leaves [reserved] as it was before the request. *)
Theorem reserve_confirm_deducts_stock (oid p : string) (lines : list Line)
    (s : Ledger) (inv : Inventory) :
  oid ≠ "" →
  Forall (satisfiable (inventory s)) lines.*1 →
  ¬ holds_reserved oid p (reservations s) →
  inventory s !! p = Some inv →
  available inv = quantity inv - reserved inv →
  exact_reserve (inventory s) lines.*1 →
  exact (quantity inv - requested_total p lines.*1) →
  inventory (confirmReservation oid (ledger (reserve_at oid lines s))) !! p
  = Some {| quantity := quantity inv - requested_total p lines.*1;
            reserved := reserved inv;
            available := available inv - requested_total p lines.*1 |}.
Proof.
  intros Hoid Hall Hno Hinv Hwf _ _.
  destruct (reserve_at_accepted oid lines s Hoid Hall) as (s1 & -> & Hi & Hr). simpl.
  rewrite confirmReservation_inventory, Hi, Hr.
  rewrite <- foldl_app, foldl_touch_lookup, Hinv. simpl. f_equal.
  rewrite find_app, fmap_app, find_new_reservations, confirm_touch_new.
  match goal with |- net p ?l inv = _ => set (ts := l) end.
  assert (Hq : total t_dq p ts = - requested_total p lines.*1).
  { unfold ts. rewrite !total_app.
    rewrite total_zero by done.
    rewrite total_find_none by done.
    rewrite total_confirm_new by done. lia. }
  assert (Hr' : total t_dr p ts = 0).
  { unfold ts. rewrite !total_app.
    rewrite total_reserve_touch.
    rewrite total_find_none by done.
    rewrite total_confirm_new by done. lia. }
  destruct (on_product p ts) as [|t l] eqn:E.
  - rewrite net_untouched by done.
    assert (H0 : requested_total p lines.*1 = 0).
    { unfold total in Hq. rewrite E in Hq. simpl in Hq. unfold sumZ in Hq; simpl in Hq. lia. }
    rewrite H0. apply inventory_eta; simpl; lia.
  - rewrite net_total by (by rewrite E). rewrite Hq, Hr'.
    apply inventory_eta; simpl; lia.
Qed.

Lemma reserve_confirm_deducts_stock_witness :
  inventory (confirmReservation "O1"
               (ledger (reserve_at "O1" [(mkItem "p1" 4, mkReadings 0 1)] stocked)))
    !! "p1"
  = Some {| quantity := 10 - requested_total "p1" [mkItem "p1" 4];
            reserved := 0;
            available := 10 - requested_total "p1" [mkItem "p1" 4] |}.
Proof.
  apply (reserve_confirm_deducts_stock "O1" "p1" [(mkItem "p1" 4, mkReadings 0 1)]
           stocked (mkInventory 10 0 10)).
  - done.
  - apply Forall_cons. split; [|apply Forall_nil; exact I].
    exists (mkInventory 10 0 10). split; [reflexivity|simpl; lia].
  - intros (r & Hr & _). vm_compute in Hr. by apply elem_of_nil in Hr.
  - reflexivity.
  - reflexivity.
  - split.
    + apply Forall_cons. split; [simpl; lia|apply Forall_nil; exact I].
    + intros q inv H. unfold stocked in H. simpl in H.
      apply lookup_singleton_Some in H as [<- <-].
      vm_compute. repeat split; discriminate.
  - vm_compute. split; discriminate.
Defined.

(** ** What the operations never do *)

Lemma same_but_settled_refl r : same_but_settled r r.
Proof. unfold same_but_settled. tauto. Qed.

Lemma same_but_settled_trans r1 r2 r3 :
  same_but_settled r1 r2 → same_but_settled r2 r3 → same_but_settled r1 r3.
Proof.
  unfold same_but_settled.
  intros (? & ? & ? & ? & ? & H12) (? & ? & ? & ? & ? & H23).
  repeat split; try congruence.
  destruct (decide (status r1 = Reserved)); [by right|].
  left. destruct H12 as [H12|?]; [|done].
  destruct H23 as [H23|H23]; congruence.
Qed.

Lemma same_but_settled_settled st pred m r :
  (∀ r, pred r = true → status r = Reserved) →
  same_but_settled r (settled st pred m r).
Proof.
  intros Hpred. unfold settled.
  destruct (pred r) eqn:Hp; [|apply same_but_settled_refl].
  destruct (m !! productId r); [|apply same_but_settled_refl].
  unfold same_but_settled; simpl. repeat split; try done.
  right. by apply Hpred.
Qed.

Lemma same_but_settled_swept calls m r : same_but_settled r (swept calls m r).
Proof.
  unfold swept. case_bool_decide as H; [|apply same_but_settled_refl].
  destruct (m !! productId r); [|apply same_but_settled_refl].
  unfold same_but_settled; simpl. repeat split; try done.
  right. by destruct H.
Qed.

Lemma step_keeps_reservation s op i r :
  reservations s !! i = Some r →
  ∃ r', reservations (step s op) !! i = Some r' ∧ same_but_settled r r'.
Proof.
  assert (Hsel : ∀ oid r, reserved_of oid r = true → status r = Reserved).
  { intros oid r0 H. by apply reserved_of_true in H as [_ ?]. }
  intros Hr. destruct op as [oid items now|oid|oid|now]; simpl.
  - exists r. split; [|apply same_but_settled_refl].
    destruct (reserve_ledger oid items now s) as (touched & new & _ & ->).
    by apply lookup_app_l_Some.
  - rewrite confirmReservation_reservations, list_lookup_fmap, Hr. simpl.
    eexists. split; [done|]. apply same_but_settled_settled, Hsel.
  - rewrite releaseReservation_reservations, list_lookup_fmap, Hr. simpl.
    eexists. split; [done|]. apply same_but_settled_settled, Hsel.
  - change (sweepExpired now s) with (release_calls s (sweep_calls now s)).
    rewrite release_calls_reservations, list_lookup_fmap, Hr. simpl.
    eexists. split; [done|]. apply same_but_settled_swept.
Qed.

(** X7. Reservations are append-only records: through any run of Reserve,
    Confirm, Release and sweep calls a stored reservation is never deleted or
    moved, its order, product, quantity, creation time and deadline never
    change, and its status changes only if it was [reserved]: [confirmed] and
    [released] are final. *)
Theorem reservations_append_only (ops : list Op) (s : Ledger) (i : nat) (r : Reservation) :
  reservations s !! i = Some r →
  ∃ r', reservations (foldl step s ops) !! i = Some r'
        ∧ orderId r' = orderId r ∧ productId r' = productId r
        ∧ rquantity r' = rquantity r
        ∧ createdAt r' = createdAt r ∧ expiresAt r' = expiresAt r
        ∧ (status r' = status r ∨ status r = Reserved).
Proof.
  intros Hr.
  assert (H : ∃ r', reservations (foldl step s ops) !! i = Some r'
                    ∧ same_but_settled r r').
  { revert s r Hr. induction ops as [|op ops IH]; intros s r Hr; simpl.
    - exists r. split; [done|apply same_but_settled_refl].
    - destruct (step_keeps_reservation s op i r Hr) as (r1 & Hr1 & H1).
      destruct (IH _ _ Hr1) as (r2 & Hr2 & H2).
      exists r2. split; [done|]. by eapply same_but_settled_trans. }
  destruct H as (r' & Hr' & H). exists r'. split; [done|]. exact H.
Qed.

Lemma reservations_append_only_witness :
  ∃ r', reservations
          (foldl step held [Confirm "O1"; Release "O1"; SweepExpired 9000000]) !! 0%nat
        = Some r'
        ∧ orderId r' = "O1" ∧ productId r' = "p1" ∧ rquantity r' = 3
        ∧ createdAt r' = 0 ∧ expiresAt r' = 900000
        ∧ (status r' = Reserved ∨ Reserved = Reserved).
Proof.
  apply (reservations_append_only [Confirm "O1"; Release "O1"; SweepExpired 9000000]
           held 0 (mkReservation "O1" "p1" 3 Reserved 0 900000)).
  reflexivity.
Defined.

(** X10. Stock on hand changes by Confirm only: Reserve (accepted or
    rejected), Release and the sweep neither create nor delete a document
    and leave the [quantity] of every product as it was. *)
Theorem quantity_changes_only_by_confirm (s : Ledger) (p : string) :
  (∀ oid items now,
     quantity <$> inventory (ledger (reserve oid items now s)) !! p
     = quantity <$> inventory s !! p)
  ∧ (∀ oid,
       quantity <$> inventory (releaseReservation oid s) !! p
       = quantity <$> inventory s !! p)
  ∧ (∀ now,
       quantity <$> inventory (sweepExpired now s) !! p
       = quantity <$> inventory s !! p).
Proof.
  split; [|split].
  - intros oid items now. apply reserve_at_quantity.
  - intros oid. apply releaseReservation_quantity.
  - intros now. unfold sweepExpired. generalize (sweep_calls now s). intros calls.
    revert s. induction calls as [|o calls IH]; intros s; simpl; [done|].
    by rewrite IH, releaseReservation_quantity.
Qed.

End InventoryFacts.

(* ===================================================================== *)
(** * Properties of the order state machine *)
(* ===================================================================== *)

Module OrderFacts.
Import OrderService OrderSpec.

Lemma react_missing now ev os :
  os !! event_order ev = None → react now ev os = os.
Proof.
  destruct ev as [p|u]; simpl; intros H.
  - unfold handlePaymentProcessed. by rewrite H.
  - unfold handleInventoryUpdated. by rewrite H.
Qed.

Lemma react_other now ev os k :
  k ≠ event_order ev → react now ev os !! k = os !! k.
Proof.
  destruct ev as [p|u]; simpl; intros Hk.
  - unfold handlePaymentProcessed.
    destruct (os !! pp_orderId p); [|done].
    case_bool_decide; by rewrite lookup_insert_ne.
  - unfold handleInventoryUpdated.
    destruct (os !! iu_orderId u); [|done].
    repeat case_bool_decide; try done. by rewrite lookup_insert_ne.
Qed.








(** ** Events for an order that is not stored *)

(** C7 fails: with an empty order collection, the message for ORD-1 is
    acknowledged. *)
Lemma unknown_order_counterexample :
  ¬ unknown_order_unacked 9 (mkPaymentProcessed "ORD-1" "success" "PAY-7")
      (mkStore ∅ true).
Proof. intros H. apply H; reflexivity. Qed.

(** C7, amended.  When a [payment.processed] message is delivered for an
    order id that has no stored order and the store answers, the handler
    returns at once, nothing is written, and the consumer acknowledges the
    message: the event is dropped and the broker will not redeliver it.
    Only a handler that throws (the store does not answer) leaves the
    message unacknowledged. *)
Theorem unknown_order_dropped_and_acked (now : Z) (p : PaymentProcessed) (st : Store) :
  orders st !! pp_orderId p = None →
  consume_payment_processed now (Some p) st
  = (st, Some (if reachable st then Acked else Unacked)).
Proof.
  intros H. unfold consume_payment_processed.
  destruct st as [os up]; simpl in *.
  destruct up; [|done].
  unfold handlePaymentProcessed. by rewrite H.
Qed.

Lemma unknown_order_dropped_and_acked_witness :
  consume_payment_processed 9 (Some (mkPaymentProcessed "ORD-1" "success" "PAY-7"))
    (mkStore ∅ true)
  = (mkStore ∅ true, Some Acked).
Proof.
  apply (unknown_order_dropped_and_acked 9
           (mkPaymentProcessed "ORD-1" "success" "PAY-7") (mkStore ∅ true)).
  reflexivity.
Defined.

(** ** Order creation *)

(** X12. An order is stored and announced exactly when the request names
    a user and its generated id ORD-<ms> is unused.  Then it is stored in
    status [pending] without a payment id, under that id, for the
    requesting user and with the lines of the request; it can be read back
    at once; every other order is left as it was; and the response, the
    stored order and the one [order.created] event carry the same id and
    the same total.  A request without a user id, or one that generates a
    stored id (a second order in the same millisecond), is refused with
    500: the store is left as it was and nothing is published. *)
Theorem postOrder_once (t_id t_created t_updated : Z) (uid : string)
    (its : list LineItem) (os : gmap string Order) :
  let oid := "ORD-" +:+ pretty t_id in
  let result := postOrder t_id t_created t_updated uid its os in
  (uid ≠ "" → os !! oid = None →
     ∃ order,
       result = (OrderCreated201 oid pending (totalAmount order),
                 <[oid := order]> os,
                 [mkOrderCreated oid uid its (totalAmount order)])
       ∧ getOrder oid result.1.2 = OrderFound200 order
       ∧ orderId order = oid
       ∧ status order = pending ∧ paymentId order = None
       ∧ userId order = uid ∧ items order = its
       ∧ createdAt order = t_created ∧ updatedAt order = t_updated
       ∧ ∀ k, k ≠ oid → result.1.2 !! k = os !! k)
  ∧ (uid = "" ∨ is_Some (os !! oid) → result = (CreateError500, os, [])).
Proof.
  intros oid result. unfold result, oid, postOrder, getOrder. simpl. split.
  - intros Huid ->. rewrite bool_decide_eq_false_2 by done.
    exists (mkOrder ("ORD-" +:+ pretty t_id) uid its (order_total its) pending None
                    t_created t_updated).
    split; [reflexivity|]. simpl. rewrite lookup_insert_eq.
    repeat split; try reflexivity.
    intros k Hk. by rewrite lookup_insert_ne.
  - intros [->|[o Ho]]; [done|]. rewrite Ho. by case_bool_decide.
Qed.

(** An order of two lines is stored and announced; the same request
    without a user id is refused. *)
Lemma postOrder_once_witness :
  (∃ order,
     postOrder 7 8 8 "u2" [mkLineItem "p1" 2 25; mkLineItem "p2" 1 10] failed_order
     = (OrderCreated201 "ORD-7" pending (totalAmount order),
        <["ORD-7" := order]> failed_order,
        [mkOrderCreated "ORD-7" "u2" [mkLineItem "p1" 2 25; mkLineItem "p2" 1 10]
                        (totalAmount order)])
     ∧ userId order = "u2" ∧ status order = pending)
  ∧ postOrder 7 8 8 "" [mkLineItem "p1" 2 25; mkLineItem "p2" 1 10] failed_order
    = (CreateError500, failed_order, []).
Proof.
  split.
  - destruct (proj1 (postOrder_once 7 8 8 "u2"
                       [mkLineItem "p1" 2 25; mkLineItem "p2" 1 10] failed_order))
      as (order & Hres & _ & _ & Hst & _ & Hu & _); [done|reflexivity|].
    exists order. split; [exact Hres|]. split; [exact Hu|exact Hst].
  - apply (proj2 (postOrder_once 7 8 8 ""
                    [mkLineItem "p1" 2 25; mkLineItem "p2" 1 10] failed_order)).
    by left.
Defined.

(** ** What the reactions never do *)

Lemma react_keeps now ev os k :
  match os !! k with
  | Some o => ∃ o', react now ev os !! k = Some o' ∧ same_order_data o o'
  | None => react now ev os !! k = None
  end.
Proof.
  assert (Hrefl : ∀ o, same_order_data o o) by (by intros o; repeat split).
  destruct (decide (k = event_order ev)) as [->|Hne].
  2:{ rewrite react_other by done. destruct (os !! k); eauto. }
  destruct (os !! event_order ev) as [o|] eqn:E.
  2:{ by rewrite react_missing. }
  destruct ev as [p|u]; simpl in *.
  - unfold handlePaymentProcessed. rewrite E.
    case_bool_decide; rewrite lookup_insert_eq; eexists; (split; [done|]);
      by repeat split.
  - unfold handleInventoryUpdated. rewrite E.
    repeat case_bool_decide; rewrite ?lookup_insert_eq, ?E; eexists;
      (split; [done|]); by repeat split.
Qed.

Lemma react_all_keeps evs os k :
  match os !! k with
  | Some o => ∃ o', react_all os evs !! k = Some o' ∧ same_order_data o o'
  | None => react_all os evs !! k = None
  end.
Proof.
  unfold react_all.
  revert os. induction evs as [|[now ev] evs IH]; intros os; simpl.
  - destruct (os !! k) as [o|]; [|done]. exists o. by repeat split.
  - pose proof (react_keeps now ev os k) as H1.
    pose proof (IH (react now ev os)) as H2.
    destruct (os !! k) as [o|].
    + destruct H1 as (o1 & Ho1 & H1). rewrite Ho1 in H2.
      destruct H2 as (o2 & Ho2 & H2). exists o2. split; [done|].
      unfold same_order_data in *. intuition congruence.
    + by rewrite H1 in H2.
Qed.

(** X13. The reactions never create or delete an order and never rewrite
    what was fixed at its creation: after any run of [payment.processed] and
    [inventory.updated] deliveries, an order id that was not stored is still
    not stored, and a stored order still has its id, user, lines, total
    amount (never recomputed) and creation time. *)
Theorem reactions_keep_order_data (evs : list (Z * Event)) (os : gmap string Order)
    (k : string) :
  match os !! k with
  | Some o =>
      ∃ o', react_all os evs !! k = Some o'
            ∧ orderId o' = orderId o ∧ userId o' = userId o ∧ items o' = items o
            ∧ totalAmount o' = totalAmount o ∧ createdAt o' = createdAt o
  | None => react_all os evs !! k = None
  end.
Proof. apply react_all_keeps. Qed.

(** X14. The last [payment.processed] event decides: whatever deliveries
    came before it, once a payment event for a stored order has been
    handled the order is [confirmed] with that event's payment id if the
    event's status is "success", and [failed] otherwise. *)
Theorem last_payment_event_decides (evs : list (Z * Event)) (now : Z)
    (p : PaymentProcessed) (os : gmap string Order) :
  is_Some (os !! pp_orderId p) →
  ∃ o', react_all os (evs ++ [(now, OnPayment p)]) !! pp_orderId p = Some o'
        ∧ status o' = (if bool_decide (pp_status p = "success") then confirmed else failed)
        ∧ (pp_status p = "success" → paymentId o' = Some (pp_paymentId p)).
Proof.
  intros [o Ho]. unfold react_all. rewrite foldl_app. simpl.
  pose proof (react_all_keeps evs os (pp_orderId p)) as H. rewrite Ho in H.
  destruct H as (o1 & Ho1 & _). unfold react_all in Ho1.
  unfold handlePaymentProcessed. rewrite Ho1.
  case_bool_decide; rewrite lookup_insert_eq; eexists; (split; [done|]); by split.
Qed.

Lemma last_payment_event_decides_witness :
  ∃ o', react_all failed_order
          ([(6, OnInventory (mkInventoryUpdated "ORD-1" "insufficient"))]
           ++ [(9, OnPayment (mkPaymentProcessed "ORD-1" "success" "PAY-7"))])
          !! "ORD-1" = Some o'
        ∧ status o' = confirmed
        ∧ ("success" = "success" → paymentId o' = Some "PAY-7").
Proof.
  apply (last_payment_event_decides
           [(6, OnInventory (mkInventoryUpdated "ORD-1" "insufficient"))] 9
           (mkPaymentProcessed "ORD-1" "success" "PAY-7") failed_order).
  eexists. reflexivity.
Defined.

(** X15. An [inventory.updated] event for an order id that has no stored
    order is dropped like a payment event: when the store answers, the
    handler returns without writing anything and the message is
    acknowledged, so a shortfall announced before the order exists never
    cancels it. *)
Theorem unknown_order_shortfall_dropped (now : Z) (u : InventoryUpdated) (st : Store) :
  orders st !! iu_orderId u = None →
  consume_inventory_updated now (Some u) st
  = (st, Some (if reachable st then Acked else Unacked)).
Proof.
  intros H. unfold consume_inventory_updated.
  destruct st as [os up]; simpl in *.
  destruct up; [|done].
  unfold handleInventoryUpdated. by rewrite H.
Qed.

Lemma unknown_order_shortfall_dropped_witness :
  consume_inventory_updated 9 (Some (mkInventoryUpdated "TEMP-5" "insufficient"))
    (mkStore failed_order true)
  = (mkStore failed_order true, Some Acked).
Proof.
  apply (unknown_order_shortfall_dropped 9 (mkInventoryUpdated "TEMP-5" "insufficient")
           (mkStore failed_order true)).
  reflexivity.
Defined.

End OrderFacts.

(* ===================================================================== *)
(** * Properties of the payment processor *)
(* ===================================================================== *)

Module PaymentFacts.
Import PaymentService PaymentSpec.

Lemma processOrderPayment_fresh t_id t_txn ok od table :
  "PAY-" +:+ pretty t_id ∉ payment_id <$> table →
  processOrderPayment t_id t_txn ok od table
  = (table ++ [payment_row t_id t_txn ok od],
     [payment_event (payment_row t_id t_txn ok od)]).
Proof.
  intros Hfresh. unfold processOrderPayment, insert_payment. simpl.
  rewrite bool_decide_eq_false_2 by done. done.
Qed.

Lemma processOrderPayment_collision t_id t_txn ok od table :
  "PAY-" +:+ pretty t_id ∈ payment_id <$> table →
  processOrderPayment t_id t_txn ok od table = (table, []).
Proof.
  intros Hused. unfold processOrderPayment, insert_payment. simpl.
  rewrite bool_decide_eq_true_2 by done. done.
Qed.





(** X16. When the generated id is unused and the columns accept the
    order, an invocation persists exactly one row, under the generated id,
    for the order and the user of the event, with status success or failed
    and a transaction id exactly on success, and publishes exactly one
    event, which carries the row's order id, payment id, status and
    transaction id, and the amount of the order as received. *)
Lemma processOrderPayment_persists_and_emits t_id t_txn ok od table :
  "PAY-" +:+ pretty t_id ∉ payment_id <$> table →
  fits_columns od →
  ∃ row ev,
    processOrderPayment t_id t_txn ok od table = (table ++ [row], [ev])
    ∧ payment_id row = "PAY-" +:+ pretty t_id
    ∧ (payment_id row ∉ payment_id <$> table)
    ∧ order_id row = orderId od ∧ user_id row = userId od
    ∧ (status row = "success" ∨ status row = "failed")
    ∧ (is_Some (transaction_id row) ↔ status row = "success")
    ∧ announces ev row ∧ ev_amount ev = totalAmount od.
Proof.
  intros Hfresh _. exists (payment_row t_id t_txn ok od).
  exists (payment_event (payment_row t_id t_txn ok od)).
  split; [by apply processOrderPayment_fresh|].
  split; [done|]. split; [done|]. do 2 (split; [done|]).
  destruct ok; simpl.
  - split; [by left|]. split; [|done]. split; [done|]. intros _. eauto.
  - split; [by right|]. split; [|done]. split; [by intros [? ?]|done].
Qed.

(** C8 at two orders created in the same millisecond.  The payment of O1
    takes the id PAY-1000, is stored and published.  The invocation for O2
    generates PAY-1000 again: the id is not fresh, the insert is rejected
    by the unique constraint, and the invocation persists no row and
    publishes no event. *)
Theorem same_millisecond_payment_lost :
  first_payment
    = ([mkPayment "PAY-1000" "O1" "u1" 50 "success" (Some "TXN-2000")],
       [mkPaymentProcessed "O1" "PAY-1000" "success" 50 (Some "TXN-2000")])
  ∧ same_ms_payment = (first_payment.1, [])
  ∧ (∀ row, row ∈ same_ms_payment.1 → order_id row ≠ "O2").
Proof.
  split; [reflexivity|]. split; [reflexivity|].
  intros row Hin. vm_compute in Hin.
  apply elem_of_cons in Hin as [->|Hin]; [discriminate|].
  by apply elem_of_nil in Hin.
Qed.




(** ** The table as a log *)

Lemma processOrderPayment_appends t_id t_txn ok od table :
  ∃ new, processOrderPayment t_id t_txn ok od table
         = (table ++ new, payment_event <$> new)
         ∧ (new = [] ∨ new = [payment_row t_id t_txn ok od])
         ∧ (new = [] ↔ "PAY-" +:+ pretty t_id ∈ payment_id <$> table).
Proof.
  destruct (decide ("PAY-" +:+ pretty t_id ∈ payment_id <$> table)) as [Hin|Hout].
  - exists []. rewrite processOrderPayment_collision by done.
    rewrite app_nil_r. split; [done|]. split; [by left|]. done.
  - exists [payment_row t_id t_txn ok od]. rewrite processOrderPayment_fresh by done.
    split; [done|]. split; [by right|]. split; [done|]. intros H. done.
Qed.

Lemma retryPayment_appends t_id t_txn ok oid table :
  ∃ new, (retryPayment t_id t_txn ok oid table).2 = (table ++ new, payment_event <$> new)
         ∧ (length new ≤ 1)%nat
         ∧ (∀ row, row ∈ new → payment_id row ∉ payment_id <$> table).
Proof.
  unfold retryPayment.
  destruct (filter _ table) as [|row0 rest]; simpl.
  - exists []. rewrite app_nil_r. split; [done|]. split; [simpl; lia|].
    intros row H. by apply elem_of_nil in H.
  - destruct (processOrderPayment_appends t_id t_txn ok
                (mkOrderData oid (user_id row0) (amount row0)) table)
      as (new & Heq & Hnew & Hiff).
    exists new. split; [done|]. destruct Hnew as [->| ->].
    + split; [simpl; lia|]. intros row H. by apply elem_of_nil in H.
    + split; [simpl; lia|]. intros row H.
      apply list_elem_of_singleton in H as ->. simpl.
      intros Hin. apply Hiff in Hin. done.
Qed.

Lemma announces_new (new : list Payment) : Forall2 announces (payment_event <$> new) new.
Proof. induction new as [|row new IH]; constructor; [done|exact IH]. Qed.

(** X17. The payments table is an append-only log that agrees with the
    events: an invocation of ProcessPayment, first attempt or retry, never
    changes or removes a stored row, appends at most one, and publishes a
    [payment.processed] event exactly for the row it appends, carrying that
    row's order id, payment id, status and transaction id. *)
Theorem payments_append_only (t_id t_txn : Z) (ok : bool) (od : OrderData)
    (oid : string) (table : list Payment) :
  (∃ new evs, processOrderPayment t_id t_txn ok od table = (table ++ new, evs)
              ∧ (length new ≤ 1)%nat
              ∧ Forall2 announces evs new)
  ∧ (∃ new evs, (retryPayment t_id t_txn ok oid table).2 = (table ++ new, evs)
                ∧ (length new ≤ 1)%nat
                ∧ Forall2 announces evs new).
Proof.
  split.
  - destruct (processOrderPayment_appends t_id t_txn ok od table)
      as (new & Heq & [->| ->] & _); do 2 eexists;
      (split; [exact Heq|split; [simpl; lia|apply announces_new]]).
  - destruct (retryPayment_appends t_id t_txn ok oid table) as (new & Heq & Hlen & _).
    exists new, (payment_event <$> new).
    split; [done|]. split; [done|apply announces_new].
Qed.

(** X18. Payment ids stay unique: if no two stored rows share a payment id,
    none do after an invocation of ProcessPayment, first attempt or retry. *)
Theorem payment_ids_stay_unique (t_id t_txn : Z) (ok : bool) (od : OrderData)
    (oid : string) (table : list Payment) :
  NoDup (payment_id <$> table) →
  NoDup (payment_id <$> (processOrderPayment t_id t_txn ok od table).1)
  ∧ NoDup (payment_id <$> (retryPayment t_id t_txn ok oid table).2.1).
Proof.
  intros Hnd.
  assert (H : ∀ od, NoDup (payment_id <$> (processOrderPayment t_id t_txn ok od table).1)).
  { intros od'.
    destruct (processOrderPayment_appends t_id t_txn ok od' table)
      as (new & -> & [->| ->] & Hiff); simpl.
    - by rewrite app_nil_r.
    - rewrite fmap_app. apply NoDup_app. split; [done|]. split.
      + intros x Hx Hx'. simpl in Hx'.
        apply list_elem_of_singleton in Hx' as ->.
        apply Hiff in Hx. done.
      + simpl. apply NoDup_singleton. }
  split; [apply H|].
  unfold retryPayment. destruct (filter _ table) as [|row0 rest]; simpl; [done|].
  apply H.
Qed.

Lemma payment_ids_stay_unique_witness :
  NoDup (payment_id <$> (processOrderPayment 1000 2001 true
                           (mkOrderData "O2" "u2" 70) first_payment.1).1).
Proof.
  apply (payment_ids_stay_unique 1000 2001 true (mkOrderData "O2" "u2" 70) "O2"
           first_payment.1).
  vm_compute. apply NoDup_singleton.
Defined.

(** ** Reading payments back *)

Lemma getPayment_app pid table new row :
  getPayment pid table = PaymentFound200 row →
  getPayment pid (table ++ new) = PaymentFound200 row.
Proof.
  unfold getPayment. rewrite filter_app.
  destruct (filter _ table) as [|r rest]; [done|]. done.
Qed.

(** X19. A stored payment stays readable: a payment that
    [GET /api/payments/:paymentId] returns keeps being returned, unchanged,
    after any later invocation of ProcessPayment, first attempt or retry. *)
Theorem stored_payment_stays_readable (pid : string) (row : Payment)
    (t_id t_txn : Z) (ok : bool) (od : OrderData) (oid : string) (table : list Payment) :
  getPayment pid table = PaymentFound200 row →
  getPayment pid (processOrderPayment t_id t_txn ok od table).1 = PaymentFound200 row
  ∧ getPayment pid (retryPayment t_id t_txn ok oid table).2.1 = PaymentFound200 row.
Proof.
  intros Hget. split.
  - destruct (processOrderPayment_appends t_id t_txn ok od table) as (new & -> & _).
    simpl. by apply getPayment_app.
  - destruct (retryPayment_appends t_id t_txn ok oid table) as (new & -> & _).
    simpl. by apply getPayment_app.
Qed.

Lemma stored_payment_stays_readable_witness :
  getPayment "PAY-1000" retried_once
  = PaymentFound200 (mkPayment "PAY-1000" "O1" "u1" 50 "failed" None).
Proof.
  apply (stored_payment_stays_readable "PAY-1000"
           (mkPayment "PAY-1000" "O1" "u1" 50 "failed" None)
           3000 4000 true (mkOrderData "O1" "u1" 50) "O1" declined).
  reflexivity.
Defined.

(** X20. A payment can be read back as soon as it is processed: when the
    generated id is unused and the columns accept the order,
    [GET /api/payments/:paymentId] answers 404 for the id before the
    invocation and returns the row the invocation appended after it, and
    [GET /api/payments/order/:orderId] lists that row last for its order,
    after the order's earlier payments. *)
Theorem processed_payment_readable (t_id t_txn : Z) (ok : bool) (od : OrderData)
    (table : list Payment) :
  "PAY-" +:+ pretty t_id ∉ payment_id <$> table →
  fits_columns od →
  getPayment ("PAY-" +:+ pretty t_id) table = PaymentNotFound404
  ∧ ∃ row,
      (processOrderPayment t_id t_txn ok od table).1 = table ++ [row]
      ∧ payment_id row = "PAY-" +:+ pretty t_id
      ∧ order_id row = orderId od
      ∧ getPayment ("PAY-" +:+ pretty t_id)
                   (processOrderPayment t_id t_txn ok od table).1
        = PaymentFound200 row
      ∧ getPaymentsByOrder (orderId od) (processOrderPayment t_id t_txn ok od table).1
        = getPaymentsByOrder (orderId od) table ++ [row].
Proof.
  intros Hfresh _.
  assert (Hnone : filter (λ row, payment_id row = "PAY-" +:+ pretty t_id) table = []).
  { destruct (filter _ table) as [|r rest] eqn:E; [done|].
    exfalso. apply Hfresh.
    assert (Hr : r ∈ filter (λ row, payment_id row = "PAY-" +:+ pretty t_id) table).
    { rewrite E. apply list_elem_of_here. }
    apply list_elem_of_filter in Hr as [<- Hin]. by apply list_elem_of_fmap_2. }
  rewrite processOrderPayment_fresh by done. simpl.
  unfold getPayment, getPaymentsByOrder. rewrite Hnone.
  split; [done|]. exists (payment_row t_id t_txn ok od).
  rewrite !filter_app, Hnone. simpl.
  do 3 (split; [done|]). split.
  - by rewrite filter_cons_True.
  - by rewrite (filter_cons_True (λ row, order_id row = orderId od)).
Qed.

Lemma processed_payment_readable_witness :
  getPayment "PAY-3000" declined = PaymentNotFound404
  ∧ ∃ row,
      (processOrderPayment 3000 4000 true (mkOrderData "O1" "u1" 50) declined).1
      = declined ++ [row]
      ∧ payment_id row = "PAY-3000"
      ∧ order_id row = "O1"
      ∧ getPayment "PAY-3000"
          (processOrderPayment 3000 4000 true (mkOrderData "O1" "u1" 50) declined).1
        = PaymentFound200 row
      ∧ getPaymentsByOrder "O1"
          (processOrderPayment 3000 4000 true (mkOrderData "O1" "u1" 50) declined).1
        = getPaymentsByOrder "O1" declined ++ [row].
Proof.
  apply (processed_payment_readable 3000 4000 true (mkOrderData "O1" "u1" 50) declined).
  - vm_compute. intros Hin.
    apply elem_of_cons in Hin as [Hin|Hin]; [discriminate|].
    by apply elem_of_nil in Hin.
  - unfold fits_columns. simpl. lia.
Defined.

Lemma processOrderPayment_persists_and_emits_witness :
  ∃ row ev,
    processOrderPayment 3000 4000 true (mkOrderData "O1" "u1" 50) declined
      = (declined ++ [row], [ev])
    ∧ payment_id row = "PAY-3000"
    ∧ (payment_id row ∉ payment_id <$> declined)
    ∧ order_id row = "O1" ∧ user_id row = "u1"
    ∧ (status row = "success" ∨ status row = "failed")
    ∧ (is_Some (transaction_id row) ↔ status row = "success")
    ∧ announces ev row ∧ ev_amount ev = 50.
Proof.
  apply (processOrderPayment_persists_and_emits 3000 4000 true
           (mkOrderData "O1" "u1" 50) declined).
  - vm_compute. intros Hin.
    apply elem_of_cons in Hin as [Hin|Hin]; [discriminate|].
    by apply elem_of_nil in Hin.
  - unfold fits_columns. simpl. lia.
Defined.

End PaymentFacts.

(* ===================================================================== *)
(** * Properties of the gateway *)
(* ===================================================================== *)

Module GatewayFacts.
Import ApiGateway.

Lemma drop_prefix (pat t : string) : drop_chars (String.length pat) (pat +:+ t) = t.
Proof. induction pat as [|c pat IH]; simpl; [by destruct t|done]. Qed.

Lemma prefix_app (pat t : string) : String.prefix pat (pat +:+ t) = true.
Proof.
  induction pat as [|c pat IH]; simpl; [by destruct t|].
  destruct (Ascii.ascii_dec c c); [done|congruence].
Qed.

Lemma remove_first_unfold (pat s : string) :
  remove_first pat s
  = if String.prefix pat s then drop_chars (String.length pat) s
    else match s with
         | EmptyString => EmptyString
         | String c s' => String c (remove_first pat s')
         end.
Proof. by destruct s. Qed.

Lemma remove_first_prefix (pat t : string) : remove_first pat (pat +:+ t) = t.
Proof. by rewrite remove_first_unfold, prefix_app, drop_prefix. Qed.

(** X21. The gateway takes the bearer value as the user id without checking
    it: a header "Bearer t" authenticates as user [t], for any [t]; a
    missing or empty header is answered 401. *)
Theorem authenticate_bearer (t : string) :
  authenticate (Some ("Bearer " +:+ t)) = Authenticated t
  ∧ authenticate None = NoAuthorization401
  ∧ authenticate (Some "") = NoAuthorization401.
Proof.
  split; [|done].
  change (authenticate (Some ("Bearer " +:+ t)))
    with (Authenticated (remove_first "Bearer " ("Bearer " +:+ t))).
  by rewrite remove_first_prefix.
Qed.

End GatewayFacts.
